(** * vts-libs: tile-set storage, delivery and encoder glue

    A shallow embedding of the parts of Melown/vts-libs that the
    specification talks about:

    - [TilarDriver]: [tilardriver::Options::index]
      (vts/driver/tilardriver/options.hpp);
    - [Paste]: [pasteTileSets] / [TileSet::paste] (vts.hpp, vts/tileset.hpp);
    - [Vts02Vts]: the vts0 -> vts encoder, [Encoder::generate] and
      [Encoder::generateHeightMap] (vadstena/src/vts/vts02vts.cpp);
    - [DeliveryImpl]: the read-only delivery facade ([meta2d], [mask],
      [meta], [credits], [filterConfig], [Delivery::input]);
    - [NodeInfoImpl]: [RFTreeSubtree], [NodeInfo] and [compatible]
      (vts/nodeinfo.hpp).

    Integers of the C++ code are modelled in [Z]; sets and maps of the code
    ([std::set], [std::map], the file store behind a driver) are stdpp's
    [gset] and [gmap]. *)

From Stdlib Require Import ZArith List Bool Lia.
From stdpp Require Import base gmap sets list fin_maps strings.

Local Open Scope Z_scope.

Set Warnings "-clear-no-such-hyp".
Set Default Proof Using "Type".

(** ** Identifiers shared by all components *)

(** [TileId]: (lod, x, y). *)
Record TileId := mkTileId { lod : Z; x : Z; y : Z }.

#[global] Instance TileId_eq_dec : EqDecision TileId.
Proof. solve_decision. Defined.

Definition TileId_to_tuple (t : TileId) : Z * Z * Z := (lod t, x t, y t).
Definition TileId_of_tuple (p : Z * Z * Z) : TileId :=
  let '(l, a, b) := p in mkTileId l a b.

#[global] Instance TileId_countable : Countable TileId.
Proof.
  refine (inj_countable' TileId_to_tuple TileId_of_tuple _).
  intros []; reflexivity.
Defined.

(* ===================================================================== *)
(** ** Tilar driver options: tile id -> (archive, file index)            *)
(* ===================================================================== *)

Module TilarDriver.

(** [vts::Index]: position of a tile in the tile grid of one LOD. *)
Record Index := mkIndex { i_lod : Z; i_x : Z; i_y : Z }.

(** [Tilar::FileIndex(col, row, type)]. *)
Record FileIndex := mkFileIndex { col : Z; row : Z; fileType : Z }.

(** [tilardriver::Options]; [Alignment] is a 2D point. The uuid plays no
    role in [index] and is kept as an opaque number. *)
Record Options := mkOptions {
  baseTileSize : Z;
  alignment : Z * Z;
  binaryOrder : Z;
  uuid : Z;
  tileMask : Z
}.

(** [Options::Index]. *)
Record OptionsIndex := mkOptionsIndex { archive : Index; file : FileIndex }.

(** The constructors of [Options] are declared in options.hpp but defined
    elsewhere; the relation they establish between the two fields is the
    one the specification gives for the mask. *)
Definition mask_of_order (o : Options) : Prop :=
  tileMask o = Z.shiftl 1 (binaryOrder o) - 1.

Section Index.

(** [tileIndex(alignment, baseTileSize, tileId)] of tileop.hpp: the grid
    index of a tile ("index of tile from alignment"). *)
Variable tileIndex : Z * Z -> Z -> TileId -> Index.

(** [Options::index]. *)
Definition index (o : Options) (tileId : TileId) (type : Z) : OptionsIndex :=
  let i := tileIndex (alignment o) (baseTileSize o) tileId in
  {| archive := mkIndex (i_lod i)
                        (Z.shiftr (i_x i) (binaryOrder o))
                        (Z.shiftr (i_y i) (binaryOrder o));
     file := mkFileIndex (Z.land (i_x i) (tileMask o))
                         (Z.land (i_y i) (tileMask o))
                         type |}.

End Index.

(** Modelled from the spec: [tileIndex] is defined in tileop.hpp, which is
    not among the sources. Section 3 addresses a tile by its position
    (lod, x, y) in the grid of its LOD, and section 4.3 shifts and masks the
    x and y of the tile id itself: the grid index of a tile is its id,
    whatever the alignment and the base tile size. *)
Definition gridIndex (_ : Z * Z) (_ : Z) (t : TileId) : Index :=
  mkIndex (lod t) (x t) (y t).

(** Modelled from the spec: the constructors of [Options] are declared in
    options.hpp and defined elsewhere. Section 4.3: the mask is
    (1 << B) - 1 for the binary order B. *)
Definition Options_new (baseTileSize : Z) (alignment : Z * Z)
    (binaryOrder uuid : Z) : Options :=
  mkOptions baseTileSize alignment binaryOrder uuid
            (Z.shiftl 1 binaryOrder - 1).

Lemma Options_new_mask b a B u : mask_of_order (Options_new b a B u).
Proof. reflexivity. Qed.

Lemma land_mask_mod (a b : Z) :
  0 <= b -> Z.land a (Z.shiftl 1 b - 1) = a mod 2 ^ b.
Proof.
  intros Hb. rewrite Z.shiftl_1_l.
  replace (2 ^ b - 1) with (Z.ones b) by (rewrite Z.ones_equiv; lia).
  apply Z.land_ones, Hb.
Qed.

(** The slot inside the archive lies in the 2^B x 2^B grid. *)
Lemma file_index_in_grid tileIndex o tileId type :
  mask_of_order o -> 0 <= binaryOrder o ->
  let f := file (index tileIndex o tileId type) in
  0 <= col f < 2 ^ binaryOrder o /\ 0 <= row f < 2 ^ binaryOrder o.
Proof.
  intros Hm Hb. cbn. rewrite Hm, !land_mask_mod by assumption.
  split; apply Z.mod_pos_bound, Z.pow_pos_nonneg; lia.
Qed.

(** Archive coordinate and slot together give the grid index back. *)
Lemma archive_file_recompose tileIndex o tileId type :
  mask_of_order o -> 0 <= binaryOrder o ->
  let i := tileIndex (alignment o) (baseTileSize o) tileId in
  let r := index tileIndex o tileId type in
  i_x i = i_x (archive r) * 2 ^ binaryOrder o + col (file r) /\
  i_y i = i_y (archive r) * 2 ^ binaryOrder o + row (file r).
Proof.
  intros Hm Hb. cbn. rewrite Hm, !land_mask_mod, !Z.shiftr_div_pow2 by assumption.
  assert (0 < 2 ^ binaryOrder o) by (apply Z.pow_pos_nonneg; lia).
  split.
  - rewrite Z.mul_comm. apply Z.div_mod. lia.
  - rewrite Z.mul_comm. apply Z.div_mod. lia.
Qed.


(** Tile (10, 1000, 37) with binary order 5: archive (10, 31, 1), slot
    (8, 5). *)
Example index_at_1000_37 :
  index gridIndex (Options_new 256 (0, 0) 5 0) (mkTileId 10 1000 37) 2 =
    {| archive := mkIndex 10 31 1; file := mkFileIndex 8 5 2 |}.
Proof. reflexivity. Qed.

(** *** The archive grid *)

(** [Tilar::Options]: binary order, files per tile, uuid. *)
Record TilarOptions := mkTilarOptions {
  to_binaryOrder : Z;
  to_filesPerTile : Z;
  to_uuid : Z
}.

(** [Options::tilar(filesPerTile)]. *)
Definition tilar (o : Options) (filesPerTile : Z) : TilarOptions :=
  mkTilarOptions (binaryOrder o) filesPerTile (uuid o).

(** A file index that an archive created with the given options can hold:
    a slot of its 2^B x 2^B grid and one of its files per tile. *)
Definition fits (t : TilarOptions) (f : FileIndex) : Prop :=
  0 <= col f < 2 ^ to_binaryOrder t /\
  0 <= row f < 2 ^ to_binaryOrder t /\
  0 <= fileType f < to_filesPerTile t.

(** Every file index that [index] computes fits the archive described by
    [tilar], for every tile, also one with negative grid coordinates. *)
Theorem index_fits_tilar tileIndex (o : Options) (tileId : TileId)
    (type filesPerTile : Z) :
  mask_of_order o -> 0 <= binaryOrder o -> 0 <= type < filesPerTile ->
  fits (tilar o filesPerTile) (file (index tileIndex o tileId type)).
Proof.
  intros Hm Hb Ht.
  destruct (file_index_in_grid tileIndex o tileId type Hm Hb) as [Hc Hr].
  unfold fits, tilar; cbn in *. auto.
Qed.

Lemma index_fits_tilar_witness :
  fits (tilar (mkOptions 256 (0, 0) 5 0 31) 3)
       (file (index gridIndex (mkOptions 256 (0, 0) 5 0 31)
                (mkTileId 10 (-1) 37) 2)).
Proof.
  apply (index_fits_tilar gridIndex (mkOptions 256 (0, 0) 5 0 31)
           (mkTileId 10 (-1) 37) 2 3); [reflexivity | cbn; lia | lia].
Defined.

(** Two tiles that [index] sends to the same archive and the same slot have
    the same grid index: no two tiles of the grid share a slot. *)
Theorem index_injective tileIndex (o : Options) (t1 t2 : TileId)
    (type1 type2 : Z) :
  mask_of_order o -> 0 <= binaryOrder o ->
  index tileIndex o t1 type1 = index tileIndex o t2 type2 ->
  tileIndex (alignment o) (baseTileSize o) t1 =
    tileIndex (alignment o) (baseTileSize o) t2 /\ type1 = type2.
Proof.
  intros Hm Hb Heq.
  destruct (archive_file_recompose tileIndex o t1 type1 Hm Hb) as [Hx1 Hy1].
  destruct (archive_file_recompose tileIndex o t2 type2 Hm Hb) as [Hx2 Hy2].
  rewrite Heq in Hx1, Hy1. rewrite <- Hx2 in Hx1. rewrite <- Hy2 in Hy1.
  assert (Hl : i_lod (archive (index tileIndex o t1 type1)) =
               i_lod (archive (index tileIndex o t2 type2))) by (by rewrite Heq).
  assert (Ht : fileType (file (index tileIndex o t1 type1)) =
               fileType (file (index tileIndex o t2 type2))) by (by rewrite Heq).
  cbn in Hl, Ht. split; [|exact Ht].
  destruct (tileIndex (alignment o) (baseTileSize o) t1),
           (tileIndex (alignment o) (baseTileSize o) t2); cbn in *. congruence.
Qed.

Lemma index_injective_witness :
  gridIndex (0, 0) 256 (mkTileId 10 1000 37) =
    gridIndex (0, 0) 256 (mkTileId 10 1000 37) /\ 2 = 2.
Proof.
  apply (index_injective gridIndex (mkOptions 256 (0, 0) 5 0 31)
           (mkTileId 10 1000 37) (mkTileId 10 1000 37) 2 2);
    [reflexivity | cbn; lia | reflexivity].
Defined.

End TilarDriver.

(* ===================================================================== *)
(** ** Paste: last tile wins                                             *)
(* ===================================================================== *)

Module Paste.

(** [LodRange]. *)
Record LodRange := mkLodRange { lr_min : Z; lr_max : Z }.

Definition in_range (r : option LodRange) (t : TileId) : bool :=
  match r with
  | None => true
  | Some r => (lr_min r <=? lod t) && (lod t <=? lr_max r)
  end.

Section Paste.

(** What is stored for one tile (mesh, atlas, navtile and metadata); paste
    copies it as it is. *)
Context {Tile : Type}.

(** A tile set, seen through [exists] and the getters: the tiles of its tile
    index with what is stored for each. *)
Abbreviation TileSet := (gmap TileId Tile).

Definition exists_ (ts : TileSet) (t : TileId) : bool :=
  bool_decide (is_Some (ts !! t)).

Definition get (ts : TileSet) (t : TileId) : option Tile := ts !! t.

Definition setTile (ts : TileSet) (t : TileId) (tile : Tile) : TileSet :=
  <[t := tile]> ts.

Definition pasteStep (r : option LodRange) (dst : TileSet)
    (e : TileId * Tile) : TileSet :=
  if in_range r e.1 then setTile dst e.1 e.2 else dst.

(** Modelled from the spec: [TileSet::paste(src, lodRange)] is only declared
    in tileset.hpp. Section 4.7: iterate the tile index of [src] and copy
    every tile of it into [dst]; an optional LOD range restricts the tiles
    taken. *)
Definition paste (dst src : TileSet) (lodRange : option LodRange) : TileSet :=
  fold_left (pasteStep lodRange) (map_to_list src) dst.

(** Modelled from the spec: [pasteTileSets(dst, src, runnable)] is only
    declared in vts.hpp; the sources are pasted one after the other, in the
    order given ("the last one is placed into the result"). The runnable
    never signals termination here. *)
Definition pasteTileSets (dst : TileSet) (src : list TileSet) : TileSet :=
  fold_left (fun d s => paste d s None) src dst.

Lemma pasteStep_fold_other r (l : list (TileId * Tile)) (acc : TileSet) t :
  t ∉ l.*1 -> fold_left (pasteStep r) l acc !! t = acc !! t.
Proof.
  revert acc. induction l as [|[k v] l IH]; intros acc Hnot; [done|].
  cbn [fold_left]. rewrite fmap_cons, not_elem_of_cons in Hnot.
  destruct Hnot as [Hne Hnot]. rewrite IH by done.
  unfold pasteStep, setTile; cbn. destruct (in_range r k); [|done].
  apply lookup_insert_ne. intros ->. by apply Hne.
Qed.

Lemma pasteStep_fold_in r (l : list (TileId * Tile)) (acc : TileSet) t v :
  NoDup l.*1 -> (t, v) ∈ l ->
  fold_left (pasteStep r) l acc !! t =
    if in_range r t then Some v else acc !! t.
Proof.
  revert acc. induction l as [|[k w] l IH]; intros acc Hnd Hin.
  - by apply elem_of_nil in Hin.
  - rewrite fmap_cons in Hnd. apply NoDup_cons in Hnd as [Hk Hnd].
    cbn [fold_left]. apply elem_of_cons in Hin as [Heq | Hin].
    + injection Heq as -> ->. rewrite pasteStep_fold_other by done.
      unfold pasteStep, setTile; cbn. destruct (in_range r k); [|done].
      apply lookup_insert_eq.
    + rewrite IH by done. destruct (in_range r t); [done|].
      assert (k <> t).
      { intros ->. apply Hk. apply list_elem_of_fmap. by exists (t, v). }
      unfold pasteStep, setTile; cbn. destruct (in_range r k); [|done].
      by apply lookup_insert_ne.
Qed.

(** What one paste leaves at a tile id. *)
Lemma paste_lookup (dst src : TileSet) r t :
  paste dst src r !! t =
    match src !! t with
    | Some v => if in_range r t then Some v else dst !! t
    | None => dst !! t
    end.
Proof.
  unfold paste. destruct (src !! t) as [v|] eqn:Hs.
  - apply pasteStep_fold_in.
    + apply NoDup_fst_map_to_list.
    + by apply elem_of_map_to_list.
  - apply pasteStep_fold_other. intros Hin.
    apply list_elem_of_fmap in Hin as [[k v] [-> Hin]].
    apply elem_of_map_to_list in Hin. cbn in Hs. congruence.
Qed.

(** Without a LOD range, paste is the union that prefers the source. *)
Lemma paste_union (dst src : TileSet) : paste dst src None = src ∪ dst.
Proof.
  apply map_eq; intros t. rewrite paste_lookup, lookup_union.
  destruct (src !! t), (dst !! t); reflexivity.
Qed.

Lemma pasteTileSets_snoc (dst : TileSet) srcs s :
  pasteTileSets dst (srcs ++ [s]) = paste (pasteTileSets dst srcs) s None.
Proof. unfold pasteTileSets. by rewrite fold_left_app. Qed.

(** Pasting sets with disjoint tiles gives the same result in either order. *)
Lemma paste_disjoint_commute (dst A B : TileSet) :
  A ##ₘ B -> pasteTileSets dst [A; B] = pasteTileSets dst [B; A].
Proof.
  intros Hd. unfold pasteTileSets; cbn. rewrite !paste_union, !assoc by apply _.
  f_equal. by apply map_union_comm.
Qed.

(** C2. Pasting A and then B into dst: at every tile id present in A or in
    B, dst afterwards holds the tile of B when B has one there, and the tile
    of A otherwise (the last tile wins). *)
Theorem paste_last_wins (dst A B : TileSet) (t : TileId) :
  exists_ A t = true \/ exists_ B t = true ->
  get (pasteTileSets dst [A; B]) t =
    if exists_ B t then get B t else get A t.
Proof.
  unfold exists_, get, pasteTileSets; cbn [fold_left]. intros H.
  rewrite !paste_lookup; cbn.
  destruct (B !! t) as [b|] eqn:HB.
  - rewrite bool_decide_true by eauto. reflexivity.
  - rewrite bool_decide_false by (intros [? ?]; congruence).
    destruct (A !! t) as [a|] eqn:HA; [reflexivity|].
    destruct H as [H|H]; apply bool_decide_eq_true in H;
      destruct H as [? ?]; congruence.
Qed.

End Paste.

Definition tsA : gmap TileId Z :=
  <[mkTileId 3 2 1 := 10]> (<[mkTileId 3 2 2 := 11]> ∅).
Definition tsB : gmap TileId Z := <[mkTileId 3 2 1 := 20]> ∅.
Definition tsDst : gmap TileId Z := <[mkTileId 3 2 1 := 1]> ∅.

Lemma paste_last_wins_witness :
  get (pasteTileSets tsDst [tsA; tsB]) (mkTileId 3 2 1) = Some 20 /\
  get (pasteTileSets tsDst [tsA; tsB]) (mkTileId 3 2 2) = Some 11.
Proof.
  split.
  - apply (paste_last_wins tsDst tsA tsB (mkTileId 3 2 1)).
    left. vm_compute. reflexivity.
  - apply (paste_last_wins tsDst tsA tsB (mkTileId 3 2 2)).
    left. vm_compute. reflexivity.
Defined.

End Paste.

(* ===================================================================== *)
(** ** Reference-frame nodes: validity and compatibility                 *)
(* ===================================================================== *)

Module NodeInfoImpl.

(** [math::Extents2]: the closed box [ll, ur], coordinates in units of the
    subtree's SRS. *)
Record Extents2 := mkExtents2 { ll_x : Z; ll_y : Z; ur_x : Z; ur_y : Z }.

(** [RFNode] (registry::ReferenceFrame::Division::Node): id, SRS, extents,
    the box its subtree is valid in (none: no constraint), and the validity
    flag behind [RFNode::valid]. *)
Record RFNode := mkRFNode {
  id : TileId;
  srs : Z;
  extents : Extents2;
  validBounds : option Extents2;
  externalTexture : bool;
  nodeValid : bool
}.

#[global] Instance Extents2_eq_dec : EqDecision Extents2.
Proof. solve_decision. Defined.

(** [registry::ReferenceFrame]: the frame owns its nodes. *)
Record ReferenceFrame := mkReferenceFrame {
  rootId : TileId;
  nodes : gmap TileId RFNode;
  metaBinaryOrder : Z
}.

(** A [const RFNode *]: nodes are sub-objects of the reference-frame object
    that owns them, so the address of a node is the address of the frame
    instance together with the node's key inside it. *)
Record NodePtr := mkNodePtr { frameAddr : Z; nodeKey : TileId }.

#[global] Instance NodePtr_eq_dec : EqDecision NodePtr.
Proof. solve_decision. Defined.

(** The live reference-frame instances, by address. *)
Abbreviation Memory := (gmap Z ReferenceFrame).

Definition deref (m : Memory) (p : NodePtr) : option RFNode :=
  match m !! frameAddr p with
  | Some rf => nodes rf !! nodeKey p
  | None => None
  end.

(** [referenceFrame.root()]: a reference to the root node inside the frame
    instance at address [a]. *)
Definition ReferenceFrame_root (m : Memory) (a : Z) : option NodePtr :=
  match m !! a with
  | Some rf => match nodes rf !! rootId rf with
               | Some _ => Some (mkNodePtr a (rootId rf))
               | None => None
               end
  | None => None
  end.

(** [RFTreeSubtree]: holds [root_], the address of the subtree's root node
    (the sampler cache takes no part in comparisons). *)
Record RFTreeSubtree := mkRFTreeSubtree { root_ : NodePtr }.

(** [RFTreeSubtree::operator==]: [root_ == other.root_]. *)
Definition RFTreeSubtree_eq (a b : RFTreeSubtree) : bool :=
  bool_decide (root_ a = root_ b).


Definition inside (a b : Extents2) : bool :=
  (ll_x b <=? ll_x a) && (ur_x a <=? ur_x b) &&
  (ll_y b <=? ll_y a) && (ur_y a <=? ur_y b).



(** [NodeInfo]: [referenceFrame_] (an address), [subtree_], [node_] (a copy
    of the node) and [partial_]. *)
Record NodeInfo := mkNodeInfo {
  referenceFrame_ : Z;
  subtree_ : RFTreeSubtree;
  node_ : RFNode;
  partial_ : bool
}.

Definition subtree (ni : NodeInfo) : RFTreeSubtree := subtree_ ni.
Definition node (ni : NodeInfo) : RFNode := node_ ni.


(** [NodeInfo::partial]. *)
Definition partial (ni : NodeInfo) : bool := partial_ ni.

(** [NodeInfo::NodeInfo(referenceFrame)], the root node info:
    [subtree_(referenceFrame.root()), node_(subtree_.root()),
    partial_(false)]. *)
Definition NodeInfo_root (m : Memory) (a : Z) : option NodeInfo :=
  match ReferenceFrame_root m a with
  | Some p =>
      match deref m p with
      | Some n => Some (mkNodeInfo a (mkRFTreeSubtree p) n false)
      | None => None
      end
  | None => None
  end.






(** [compatible(ni1, ni2)]: [ni1.subtree() == ni2.subtree()]. *)
Definition compatible (ni1 ni2 : NodeInfo) : bool :=
  RFTreeSubtree_eq (subtree ni1) (subtree ni2).

(** *** Geometry of boxes, point by point *)












Definition boundedRoot : RFNode :=
  mkRFNode (mkTileId 0 0 0) 1 (mkExtents2 0 0 200 200)
           (Some (mkExtents2 0 0 100 100)) false true.

(** The root node info is never partial. *)
Lemma NodeInfo_root_not_partial m a ni :
  NodeInfo_root m a = Some ni -> partial ni = false.
Proof.
  unfold NodeInfo_root. destruct (ReferenceFrame_root m a); [|discriminate].
  destruct (deref m n); [|discriminate]. by intros [= <-].
Qed.

Lemma NodeInfo_root_subtree m a ni :
  NodeInfo_root m a = Some ni ->
  exists rf, m !! a = Some rf /\
    root_ (subtree ni) = mkNodePtr a (rootId rf) /\
    nodes rf !! rootId rf = Some (node ni).
Proof.
  unfold NodeInfo_root, ReferenceFrame_root, deref.
  destruct (m !! a) as [rf|] eqn:Hm; [|discriminate].
  destruct (nodes rf !! rootId rf) as [r|] eqn:Hr; [|discriminate].
  cbn. rewrite Hm, Hr. intros [= <-]. exists rf. by cbn.
Qed.

(** C10. [compatible] is true exactly when the two node infos hold the
    address of the same root node object; node infos made from two distinct
    reference-frame instances with equal contents have equal root nodes and
    are nevertheless incompatible. *)
Theorem compatible_is_root_identity (ni1 ni2 : NodeInfo) :
  (compatible ni1 ni2 = true <-> root_ (subtree ni1) = root_ (subtree ni2)) /\
  (forall (m : Memory) (a1 a2 : Z),
     a1 <> a2 -> m !! a1 = m !! a2 ->
     NodeInfo_root m a1 = Some ni1 -> NodeInfo_root m a2 = Some ni2 ->
     node ni1 = node ni2 /\ partial ni1 = partial ni2 /\
     compatible ni1 ni2 = false).
Proof.
  split.
  - unfold compatible, RFTreeSubtree_eq. apply bool_decide_eq_true.
  - intros m a1 a2 Hne Heq H1 H2.
    rewrite (NodeInfo_root_not_partial _ _ _ H1),
            (NodeInfo_root_not_partial _ _ _ H2).
    apply NodeInfo_root_subtree in H1 as (rf1 & Hm1 & Hp1 & Hn1).
    apply NodeInfo_root_subtree in H2 as (rf2 & Hm2 & Hp2 & Hn2).
    assert (rf1 = rf2) by congruence. subst rf2.
    split; [congruence|]. split; [reflexivity|].
    unfold compatible, RFTreeSubtree_eq. apply bool_decide_eq_false.
    rewrite Hp1, Hp2. intros [= ?]. contradiction.
Qed.

Definition frame0 : ReferenceFrame :=
  mkReferenceFrame (mkTileId 0 0 0) (<[mkTileId 0 0 0 := boundedRoot]> ∅) 5.

(** Two instances of the same reference frame, at addresses 16 and 32. *)
Definition twoFrames : Memory := <[16 := frame0]> (<[32 := frame0]> ∅).

Definition rootInfoAt (a : Z) : NodeInfo :=
  mkNodeInfo a (mkRFTreeSubtree (mkNodePtr a (mkTileId 0 0 0))) boundedRoot
             false.

Lemma compatible_is_root_identity_witness :
  NodeInfo_root twoFrames 16 = Some (rootInfoAt 16) /\
  NodeInfo_root twoFrames 32 = Some (rootInfoAt 32) /\
  node (rootInfoAt 16) = node (rootInfoAt 32) /\
  compatible (rootInfoAt 16) (rootInfoAt 32) = false /\
  compatible (rootInfoAt 16) (rootInfoAt 16) = true.
Proof.
  assert (H16 : NodeInfo_root twoFrames 16 = Some (rootInfoAt 16))
    by (vm_compute; reflexivity).
  assert (H32 : NodeInfo_root twoFrames 32 = Some (rootInfoAt 32))
    by (vm_compute; reflexivity).
  destruct (compatible_is_root_identity (rootInfoAt 16) (rootInfoAt 32))
    as [_ Hdistinct].
  destruct (Hdistinct twoFrames 16 32) as (Hn & _ & Hc);
    [lia | vm_compute; reflexivity | exact H16 | exact H32 |].
  destruct (compatible_is_root_identity (rootInfoAt 16) (rootInfoAt 16))
    as [Hsame _].
  split; [exact H16|]. split; [exact H32|]. split; [exact Hn|].
  split; [exact Hc|]. apply Hsame. reflexivity.
Defined.




End NodeInfoImpl.

(* ===================================================================== *)
(** ** Delivery: read-only access with synthesised 2D tiles              *)
(* ===================================================================== *)

Module DeliveryImpl.

(** [storage::File]. *)
Inductive File := config | tileIndex | registry.

(** [storage::TileFile]. *)
Inductive TileFile := meta | mesh | atlas | navtile | meta2d | mask | credits.

(** [vts::FileFlavor]. *)
Inductive FileFlavor := regular | raw | debug.

#[global] Instance File_eq_dec : EqDecision File.
Proof. solve_decision. Defined.
#[global] Instance TileFile_eq_dec : EqDecision TileFile.
Proof. solve_decision. Defined.
#[global] Instance FileFlavor_eq_dec : EqDecision FileFlavor.
Proof. solve_decision. Defined.

Definition File_to_nat (f : File) : nat :=
  match f with config => 0 | tileIndex => 1 | registry => 2 end%nat.
Definition File_of_nat (n : nat) : File :=
  match n with O => config | S O => tileIndex | _ => registry end.
#[global] Instance File_countable : Countable File.
Proof. refine (inj_countable' File_to_nat File_of_nat _). by intros []. Defined.

Definition TileFile_to_nat (f : TileFile) : nat :=
  match f with
  | meta => 0 | mesh => 1 | atlas => 2 | navtile => 3
  | meta2d => 4 | mask => 5 | credits => 6
  end%nat.
Definition TileFile_of_nat (n : nat) : TileFile :=
  match n with
  | 0 => meta | 1 => mesh | 2 => atlas | 3 => navtile
  | 4 => meta2d | 5 => mask | _ => credits
  end%nat.
#[global] Instance TileFile_countable : Countable TileFile.
Proof.
  refine (inj_countable' TileFile_to_nat TileFile_of_nat _). by intros [].
Defined.

(** Errors thrown by the storage layer. *)
Inductive Error := NoSuchFile | StorageError | FormatError.

(** Outcome of a call: a value, an exception, or the dereference of a null
    [IStream::pointer] (behaviour the language leaves undefined). *)
Inductive Res (A : Type) : Type :=
| Ret (a : A)
| Throw (e : Error)
| NullDeref.
Arguments Ret {A} a.
Arguments Throw {A} e.
Arguments NullDeref {A}.

#[global] Instance Res_bind : MBind Res := fun A B k r =>
  match r with
  | Ret a => k a
  | Throw e => Throw e
  | NullDeref => NullDeref
  end.

(** [FullTileSetProperties]: the fields of the tile-set config; the driver
    options are a [boost::any], empty or holding the options of one
    driver. *)
Record FullTileSetProperties (DriverOptions : Type) := mkProperties {
  p_id : string;
  p_referenceFrame : string;
  p_lodRange : Z * Z;
  p_position : list Z;
  p_credits : gset Z;
  p_boundLayers : gset Z;
  p_driverOptions : option DriverOptions
}.
Arguments mkProperties {DriverOptions}.
Arguments p_id {DriverOptions}.
Arguments p_referenceFrame {DriverOptions}.
Arguments p_lodRange {DriverOptions}.
Arguments p_position {DriverOptions}.
Arguments p_credits {DriverOptions}.
Arguments p_boundLayers {DriverOptions}.
Arguments p_driverOptions {DriverOptions}.

(** [props.driverOptions = boost::any()]. *)
Definition resetDriverOptions {D} (p : FullTileSetProperties D)
    : FullTileSetProperties D :=
  mkProperties (p_id p) (p_referenceFrame p) (p_lodRange p) (p_position p)
               (p_credits p) (p_boundLayers p) None.

(** [registry::Credit]. *)
Record Credit := mkCredit { c_id : string; c_numericId : Z }.

(** [CreditTile]: [credits] maps a credit's string id to an optional
    value. *)
Record CreditTile := mkCreditTile { ct_credits : gmap string (option Z) }.

(** Union of credit sets, one set after the other, stopping as soon as the
    collected credits number at least [maxCount]. *)
Fixpoint unionUntil (maxCount : Z) (l : list (gset Z)) (acc : gset Z)
    : gset Z :=
  match l with
  | [] => acc
  | c :: rest =>
      let acc' := acc ∪ c in
      if maxCount <=? Z.of_nat (size acc') then acc'
      else unionUntil maxCount rest acc'
  end.

(** [unionUntil] is the union of the shortest prefix that reaches
    [maxCount], or of all the sets when none does. *)
Lemma unionUntil_prefix n (l : list (gset Z)) (acc : gset Z) :
  exists k : nat,
    (k <= length l)%nat /\
    unionUntil n l acc = acc ∪ ⋃ (take k l) /\
    (k = length l \/ n <= Z.of_nat (size (acc ∪ ⋃ (take k l)))) /\
    (forall k', (0 < k' < k)%nat ->
       Z.of_nat (size (acc ∪ ⋃ (take k' l))) < n).
Proof.
  assert (Hassoc : forall c X : gset Z, acc ∪ (c ∪ X) = acc ∪ c ∪ X)
    by set_solver.
  revert acc Hassoc. induction l as [|c l IH]; intros acc Hassoc.
  - exists 0%nat. rewrite take_0, union_list_nil.
    repeat split; [lia | set_solver | by left | lia].
  - cbn [unionUntil]. destruct (n <=? Z.of_nat (size (acc ∪ c))) eqn:Hn.
    + exists 1%nat. apply Z.leb_le in Hn.
      rewrite firstn_cons, take_0, union_list_singleton_L.
      repeat split; [cbn; lia | by right | lia].
    + apply Z.leb_gt in Hn.
      destruct (IH (acc ∪ c)) as (k & Hk & Heq & Hstop & Hmin);
        [set_solver|].
      exists (S k). rewrite firstn_cons, union_list_cons, Hassoc.
      repeat split; [cbn; lia | exact Heq | | ].
      * destruct Hstop as [->|Hstop]; [by left | by right].
      * intros [|k'] Hk'; [lia|].
        rewrite firstn_cons, union_list_cons, Hassoc.
        destruct k' as [|k'].
        -- rewrite take_0, union_list_nil.
           assert (acc ∪ c ∪ ∅ = acc ∪ c) as -> by set_solver. exact Hn.
        -- apply Hmin. lia.
Qed.

(** When no metatile carries a credit unknown to the properties, stopping
    early loses nothing: the result is the union of all the sets. *)
Lemma unionUntil_all (known : gset Z) (l : list (gset Z)) (acc : gset Z) :
  acc ⊆ known -> Forall (fun c => c ⊆ known) l ->
  unionUntil (Z.of_nat (size known)) l acc = acc ∪ ⋃ l.
Proof.
  revert acc. induction l as [|c l IH]; intros acc Hacc Hall; cbn.
  - set_solver.
  - apply Forall_cons in Hall as [Hc Hall].
    assert (Hsub : acc ∪ c ⊆ known) by set_solver.
    assert (Hrest : ⋃ l ⊆ known).
    { clear -Hall. induction Hall; cbn; set_solver. }
    destruct (_ <=? _) eqn:Hn.
    + apply Z.leb_le in Hn.
      assert (acc ∪ c = known).
      { apply set_subseteq_size_eq; [exact Hsub|]. lia. }
      set_solver.
    + rewrite IH by assumption. set_solver.
Qed.

Section Delivery.

(** Stored bytes, and the driver options kept in a config. *)
Context {Bytes DriverOptions : Type}.

Abbreviation Properties := (FullTileSetProperties DriverOptions).

(** Images handed to [imgproc::png::serialize]. *)
Inductive Image :=
| emptyDebugMask
| debugMask (meshMask : Bytes) (flattener : bool)
| mask2d (meshMask : Bytes) (flattener : bool)
| meta2dImage (tileIndex : gmap TileId Z) (tileId : TileId).

(** What a stream delivers. *)
Inductive Content :=
| stored (b : Bytes)
| png (img : Image) (compression : Z)
| debugNode (tileIndex : gmap TileId Z) (tileId : TileId)
| creditTile (tile : CreditTile).

Inductive StreamType :=
| fileType (f : File)
| tileFileType (t : TileFile)
| mimeType (s : string).

Inductive StreamName :=
| storedName (path : string)
| filename (root : string) (tileId : TileId) (type : TileFile).

(** [IStream]: content with type, name and modification time. *)
Record IStream := mkIStream {
  is_type : StreamType;
  is_content : Content;
  is_lastModified : Z;
  is_name : StreamName
}.

(** [vs::memIStream(type, data, lastModified, name)]. *)
Definition memIStream (t : StreamType) (data : Content) (lm : Z)
    (name : StreamName) : IStream := mkIStream t data lm name.

(** [Driver]: the files it can locate. *)
Record Driver := mkDriver {
  d_files : gmap File IStream;
  d_tileFiles : gmap (TileId * TileFile) IStream;
  d_named : gmap string IStream;
  d_root : string;
  d_lastModified : Z;
  d_flattener : bool
}.

(** [tileset::Index]: the tile index, the binary order of metatiles and
    the metatiles that exist. *)
Record Index := mkIndex {
  idx_tileIndex : gmap TileId Z;
  idx_metaBinaryOrder : Z;
  idx_meta : gset TileId
}.

Definition Index_meta (i : Index) (metaId : TileId) : bool :=
  bool_decide (metaId ∈ idx_meta i).

(** An [IStream::pointer]; [None] is the null pointer. *)
Abbreviation pointer := (option IStream).

(** Modelled from the spec: the driver's [input] is declared in driver.hpp.
    Sections 4.4 and 7: a read that cannot locate its key fails with
    [NoSuchFile]. *)
Definition Driver_input (d : Driver) (type : File) : Res pointer :=
  match d_files d !! type with
  | Some s => Ret (Some s)
  | None => Throw NoSuchFile
  end.

(** Modelled from the spec: [input(key, NullWhenNotFound)] returns the null
    stream instead. *)
Definition Driver_input_null (d : Driver) (type : File) : Res pointer :=
  Ret (d_files d !! type).

Definition Driver_inputTile (d : Driver) (tileId : TileId) (type : TileFile)
    : Res pointer :=
  match d_tileFiles d !! (tileId, type) with
  | Some s => Ret (Some s)
  | None => Throw NoSuchFile
  end.

Definition Driver_inputTile_null (d : Driver) (tileId : TileId)
    (type : TileFile) : Res pointer :=
  Ret (d_tileFiles d !! (tileId, type)).

(** [raw->...]: using the stream behind a pointer. *)
Definition derefStream (p : pointer) : Res IStream :=
  match p with
  | Some s => Ret s
  | None => NullDeref
  end.

(** From 2d.hpp: which tile ids name a 2D metatile or a credit tile, the
    credit tile a tile id belongs to, and the binary order of credit
    tiles. *)
Variable Meta2d_isMetaId : TileId -> bool.
Variable CreditTile_isCreditId : TileId -> bool.
Variable CreditTile_creditsId : TileId -> TileId.
Variable CreditTile_binaryOrder : Z.

(** [tileset::loadConfig] and [tileset::saveConfig] (config.hpp). *)
Variable loadConfig : Bytes -> StreamName -> Res Properties.
Variable saveConfig : Properties -> Bytes.

(** [registry::system.credits(cid, std::nothrow)]. *)
Variable registryCredits : Z -> option Credit.

(** The credits recorded in a stored metatile, as
    [loadCreditsFromMetaTile] reads them. *)
Variable metaTileCredits : IStream -> gset Z.

(** [meta2d(driver, index, tileId, noSuchFile)]. *)
Definition meta2d_ (d : Driver) (index : Index) (tileId : TileId)
    (noSuchFile : bool) : Res pointer :=
  if negb (Meta2d_isMetaId tileId) then
    if noSuchFile then Throw NoSuchFile else Ret None
  else
    Ret (Some (memIStream (tileFileType mask)
                 (png (meta2dImage (idx_tileIndex index) tileId) 9)
                 (d_lastModified d)
                 (filename (d_root d) tileId meta2d))).

(** [constants::EmptyMask]. *)
Definition EmptyMask : Content := png emptyDebugMask 9.

Definition storedBytes (s : IStream) : Res Bytes :=
  match is_content s with
  | stored b => Ret b
  | _ => Throw FormatError
  end.

(** [mask(driver, tileId, flavor, noSuchFile)]. *)
Definition mask_ (d : Driver) (tileId : TileId) (flavor : FileFlavor)
    (noSuchFile : bool) : Res pointer :=
  let debug_ := bool_decide (flavor = debug) in
  stream ← (if noSuchFile && negb debug_
            then Driver_inputTile d tileId mesh
            else Driver_inputTile_null d tileId mesh);
  match stream with
  | None =>
      if debug_ then
        Ret (Some (memIStream (tileFileType mask) EmptyMask (-1)
                     (filename (d_root d) tileId mask)))
      else Ret None
  | Some s =>
      meshMask ← storedBytes s;
      let img := if debug_ then debugMask meshMask (d_flattener d)
                 else mask2d meshMask (d_flattener d) in
      Ret (Some (memIStream (tileFileType mask) (png img 9)
                   (is_lastModified s)
                   (filename (d_root d) tileId mask)))
  end.

(** [meta(driver, index, properties, tileId, flavor, noSuchFile)]. *)
Definition meta_ (d : Driver) (index : Index) (properties : Properties)
    (tileId : TileId) (flavor : FileFlavor) (noSuchFile : bool)
    : Res pointer :=
  if negb (bool_decide (flavor = debug)) then
    if noSuchFile then Driver_inputTile d tileId meta
    else Driver_inputTile_null d tileId meta
  else
    Ret (Some (memIStream (mimeType "application/json; charset=utf-8")
                 (debugNode (idx_tileIndex index) tileId) (-1)
                 (filename (d_root d) tileId meta))).

(** [filterConfig(raw)]: load the config, reset the driver options and
    save it into a fresh stream made from [*raw]. *)
Definition filterConfig (raw_ : pointer) : Res pointer :=
  s ← derefStream raw_;
  bytes ← storedBytes s;
  props ← loadConfig bytes (is_name s);
  let props' := resetDriverOptions props in
  Ret (Some (mkIStream (is_type s) (stored (saveConfig props'))
               (is_lastModified s) (is_name s))).

(** The [extract] lambda of [credits]: every credit id the registry knows
    is entered into the tile under the credit's string id. *)
Definition extract (cs : gset Z) (tile : CreditTile) : CreditTile :=
  foldr (fun cid t =>
           match registryCredits cid with
           | Some credit => mkCreditTile (<[c_id credit := None]> (ct_credits t))
           | None => t
           end) tile (elements cs).

(** [loadCreditsFromMetaTile(is->get(), credits, is->name())]: the credits
    of the metatile are added to [credits]. *)
Definition loadCreditsFromMetaTile (s : IStream) (cs : gset Z) : gset Z :=
  cs ∪ metaTileCredits s.

(** Progress of the loops of [creditsFromMetatiles]: still running with
    the credits and modification time so far, or left by a [return]. *)
Inductive Loop :=
| running (cs : gset Z) (lastModified : Z)
| returned (r : bool) (cs : gset Z) (lastModified : Z).

(** Body of the inner loop for one [metaId]. *)
Definition visitMetaTile (d : Driver) (index : Index) (noSuchFile : bool)
    (maxCount : Z) (metaId : TileId) (cs : gset Z) (lastModified : Z)
    : Res Loop :=
  if negb (Index_meta index metaId) then Ret (running cs lastModified)
  else
    stream ← (if noSuchFile then Driver_inputTile d metaId meta
              else Driver_inputTile_null d metaId meta);
    match stream with
    | None => Ret (returned false cs lastModified)
    | Some s =>
        let cs' := loadCreditsFromMetaTile s cs in
        let lm := is_lastModified s in
        let lastModified' := if lastModified <? lm then lm else lastModified in
        if maxCount <=? Z.of_nat (size cs')
        then Ret (returned true cs' lastModified')
        else Ret (running cs' lastModified')
    end.

(** [for (int i(0); i < count; ++i)], the columns still to visit given as
    a list. *)
Fixpoint columns (d : Driver) (index : Index) (noSuchFile : bool)
    (maxCount : Z) (creditsId : TileId) (skip row : Z) (is_ : list Z)
    (cs : gset Z) (lastModified : Z) : Res Loop :=
  match is_ with
  | [] => Ret (running cs lastModified)
  | i :: rest =>
      let metaId := mkTileId (lod creditsId) (x creditsId + i * skip) row in
      st ← visitMetaTile d index noSuchFile maxCount metaId cs lastModified;
      match st with
      | running cs' lm' =>
          columns d index noSuchFile maxCount creditsId skip row rest cs' lm'
      | returned _ _ _ => Ret st
      end
  end.

(** [for (int j(0); j < count; ++j)]. *)
Fixpoint rows (d : Driver) (index : Index) (noSuchFile : bool)
    (maxCount : Z) (creditsId : TileId) (skip count : Z) (js : list Z)
    (cs : gset Z) (lastModified : Z) : Res Loop :=
  match js with
  | [] => Ret (running cs lastModified)
  | j :: rest =>
      let row := y creditsId + j * skip in
      st ← columns d index noSuchFile maxCount creditsId skip row
             (seqZ 0 count) cs lastModified;
      match st with
      | running cs' lm' =>
          rows d index noSuchFile maxCount creditsId skip count rest cs' lm'
      | returned _ _ _ => Ret st
      end
  end.

(** [creditsFromMetatiles]: the result together with the final values of
    the reference parameters [credits] and [lastModified]. *)
Definition creditsFromMetatiles (d : Driver) (index : Index)
    (creditsId : TileId) (noSuchFile : bool) (cs : gset Z) (maxCount : Z)
    (lastModified : Z) : Res (bool * gset Z * Z) :=
  let metaOrder := idx_metaBinaryOrder index in
  if CreditTile_binaryOrder <? metaOrder then Throw StorageError
  else
    let depthDiff := CreditTile_binaryOrder - metaOrder in
    let count := Z.shiftl 1 depthDiff in
    let skip := Z.shiftl 1 metaOrder in
    st ← rows d index noSuchFile maxCount creditsId skip count
           (seqZ 0 count) cs lastModified;
    match st with
    | running cs' lm' => Ret (true, cs', lm')
    | returned r cs' lm' => Ret (r, cs', lm')
    end.

(** The [StringIStream] holding the serialised credit tile. *)
Definition creditStream (d : Driver) (tileId : TileId) (tile : CreditTile)
    (lastModified : Z) : IStream :=
  mkIStream (tileFileType credits) (creditTile tile) lastModified
            (filename (d_root d) tileId credits).

(** [credits(driver, index, properties, tileId, noSuchFile)]. *)
Definition credits_ (d : Driver) (index : Index) (properties : Properties)
    (tileId : TileId) (noSuchFile : bool) : Res pointer :=
  if negb (CreditTile_isCreditId tileId) then
    if noSuchFile then Throw NoSuchFile else Ret None
  else
    let tile := mkCreditTile ∅ in
    let lastModified := -1 in
    if Z.of_nat (size (p_credits properties)) <=? 1 then
      Ret (Some (creditStream d tileId
                   (extract (p_credits properties) tile) lastModified))
    else
      r ← creditsFromMetatiles d index (CreditTile_creditsId tileId)
            noSuchFile ∅ (Z.of_nat (size (p_credits properties)))
            lastModified;
      match r with
      | (false, _, _) => Ret None
      | (true, cs, lm) =>
          let lm' := if lm <=? 0 then d_lastModified d else lm in
          Ret (Some (creditStream d tileId (extract cs tile) lm'))
      end.

(** [Delivery]: [driver_], [properties_], [index_]. *)
Record Delivery := mkDelivery {
  driver_ : Driver;
  properties_ : Properties;
  index_ : Index
}.

(** [Delivery::input(File type)]. *)
Definition input (dl : Delivery) (type : File) : Res pointer :=
  match type with
  | config => raw_ ← Driver_input (driver_ dl) type; filterConfig raw_
  | _ => Driver_input (driver_ dl) type
  end.

(** [Delivery::input(File type, const NullWhenNotFound_t&)]. *)
Definition input_null (dl : Delivery) (type : File) : Res pointer :=
  match type with
  | config => raw_ ← Driver_input_null (driver_ dl) type; filterConfig raw_
  | _ => Driver_input_null (driver_ dl) type
  end.

(** [Delivery::input(tileId, type, flavor)]. *)
Definition inputTile (dl : Delivery) (tileId : TileId) (type : TileFile)
    (flavor : FileFlavor) : Res pointer :=
  match type with
  | meta2d => meta2d_ (driver_ dl) (index_ dl) tileId true
  | mask => mask_ (driver_ dl) tileId flavor true
  | credits =>
      credits_ (driver_ dl) (index_ dl) (properties_ dl) tileId true
  | meta =>
      meta_ (driver_ dl) (index_ dl) (properties_ dl) tileId flavor true
  | _ => Driver_inputTile (driver_ dl) tileId type
  end.

(** [Delivery::input(tileId, type, flavor, const NullWhenNotFound_t&)]. *)
Definition inputTile_null (dl : Delivery) (tileId : TileId)
    (type : TileFile) (flavor : FileFlavor) : Res pointer :=
  match type with
  | meta2d => meta2d_ (driver_ dl) (index_ dl) tileId false
  | mask => mask_ (driver_ dl) tileId flavor false
  | credits =>
      credits_ (driver_ dl) (index_ dl) (properties_ dl) tileId false
  | meta =>
      meta_ (driver_ dl) (index_ dl) (properties_ dl) tileId flavor false
  | _ => Driver_inputTile_null (driver_ dl) tileId type
  end.

(** *** Reads that cannot locate their key *)

(** The stream returned for a mask in debug flavor when there is no mesh. *)
Definition transparentMask (d : Driver) (tileId : TileId) : IStream :=
  memIStream (tileFileType mask) EmptyMask (-1)
             (filename (d_root d) tileId mask).

Lemma input_missing_file (dl : Delivery) (type : File) :
  type <> config -> d_files (driver_ dl) !! type = None ->
  input dl type = Throw NoSuchFile /\ input_null dl type = Ret None.
Proof.
  intros Hne Hnone. unfold input, input_null, Driver_input, Driver_input_null.
  destruct type; try congruence; rewrite Hnone; done.
Qed.

Lemma input_missing_tile_file (dl : Delivery) tileId (type : TileFile) flavor :
  type = mesh \/ type = atlas \/ type = navtile ->
  d_tileFiles (driver_ dl) !! (tileId, type) = None ->
  inputTile dl tileId type flavor = Throw NoSuchFile /\
  inputTile_null dl tileId type flavor = Ret None.
Proof.
  intros Ht Hnone.
  unfold inputTile, inputTile_null, Driver_inputTile, Driver_inputTile_null.
  destruct Ht as [-> | [-> | ->]]; rewrite Hnone; done.
Qed.

Lemma input_missing_meta (dl : Delivery) tileId flavor :
  flavor <> debug ->
  d_tileFiles (driver_ dl) !! (tileId, meta) = None ->
  inputTile dl tileId meta flavor = Throw NoSuchFile /\
  inputTile_null dl tileId meta flavor = Ret None.
Proof.
  intros Hf Hnone. unfold inputTile, inputTile_null, meta_.
  rewrite bool_decide_false by done. cbn.
  unfold Driver_inputTile, Driver_inputTile_null. rewrite Hnone. done.
Qed.

Lemma input_invalid_meta2d (dl : Delivery) tileId flavor :
  Meta2d_isMetaId tileId = false ->
  inputTile dl tileId meta2d flavor = Throw NoSuchFile /\
  inputTile_null dl tileId meta2d flavor = Ret None.
Proof.
  intros Hid. unfold inputTile, inputTile_null, meta2d_. rewrite Hid. done.
Qed.

Lemma input_invalid_credits (dl : Delivery) tileId flavor :
  CreditTile_isCreditId tileId = false ->
  inputTile dl tileId credits flavor = Throw NoSuchFile /\
  inputTile_null dl tileId credits flavor = Ret None.
Proof.
  intros Hid. unfold inputTile, inputTile_null, credits_. rewrite Hid. done.
Qed.

(** A missing config: the throwing read fails with [NoSuchFile]; the read
    with [NullWhenNotFound] hands the null stream to [filterConfig], which
    dereferences it. *)
Lemma input_missing_config (dl : Delivery) :
  d_files (driver_ dl) !! config = None ->
  input dl config = Throw NoSuchFile /\ input_null dl config = NullDeref.
Proof.
  intros Hnone. unfold input, input_null, Driver_input, Driver_input_null.
  rewrite Hnone. done.
Qed.

(** C6. For a tile with no stored mesh, the mask in debug flavor is the
    transparent placeholder PNG, whichever way the caller asked for
    not-found handling; in any other flavor the read fails with
    [NoSuchFile], or returns the null stream when the caller passed
    [NullWhenNotFound]. *)
Theorem mask_without_mesh (dl : Delivery) (tileId : TileId)
    (flavor : FileFlavor) :
  d_tileFiles (driver_ dl) !! (tileId, mesh) = None ->
  (flavor = debug ->
     inputTile dl tileId mask flavor =
       Ret (Some (transparentMask (driver_ dl) tileId)) /\
     inputTile_null dl tileId mask flavor =
       Ret (Some (transparentMask (driver_ dl) tileId)) /\
     is_content (transparentMask (driver_ dl) tileId) = png emptyDebugMask 9) /\
  (flavor <> debug ->
     inputTile dl tileId mask flavor = Throw NoSuchFile /\
     inputTile_null dl tileId mask flavor = Ret None).
Proof.
  intros Hnone. split.
  - intros ->. unfold inputTile, inputTile_null, mask_.
    rewrite bool_decide_true by done. rewrite andb_false_r.
    unfold Driver_inputTile_null. rewrite Hnone. done.
  - intros Hf. unfold inputTile, inputTile_null, mask_.
    rewrite bool_decide_false by done. cbn.
    unfold Driver_inputTile, Driver_inputTile_null. rewrite Hnone. done.
Qed.

(** *** Credits collected from metatiles *)

(** The ids of the metatiles under a credit tile, row by row, in the order
    the two loops visit them. *)
Definition regionRow (index : Index) (creditsId : TileId) (j : Z)
    : list TileId :=
  let metaOrder := idx_metaBinaryOrder index in
  let count := Z.shiftl 1 (CreditTile_binaryOrder - metaOrder) in
  let skip := Z.shiftl 1 metaOrder in
  map (fun i => mkTileId (lod creditsId) (x creditsId + i * skip)
                         (y creditsId + j * skip))
      (seqZ 0 count).

Definition regionMetaIds (index : Index) (creditsId : TileId) : list TileId :=
  flat_map (regionRow index creditsId)
    (seqZ 0 (Z.shiftl 1 (CreditTile_binaryOrder - idx_metaBinaryOrder index))).

(** Those of them the index knows as existing metatiles. *)
Definition storedMetaIds (index : Index) (creditsId : TileId) : list TileId :=
  List.filter (Index_meta index) (regionMetaIds index creditsId).

Definition streamsOf (d : Driver) (ms : list TileId) : list IStream :=
  omap (fun m => d_tileFiles d !! (m, meta)) ms.

(** The loops of [creditsFromMetatiles] over the streams of the stored
    metatiles. *)
Fixpoint scan (maxCount : Z) (l : list IStream) (cs : gset Z)
    (lastModified : Z) : Loop :=
  match l with
  | [] => running cs lastModified
  | s :: rest =>
      let cs' := loadCreditsFromMetaTile s cs in
      let lm := is_lastModified s in
      let lastModified' := if lastModified <? lm then lm else lastModified in
      if maxCount <=? Z.of_nat (size cs') then returned true cs' lastModified'
      else scan maxCount rest cs' lastModified'
  end.

Definition Loop_credits (st : Loop) : gset Z :=
  match st with running cs _ | returned _ cs _ => cs end.

Definition Loop_lastModified (st : Loop) : Z :=
  match st with running _ lm | returned _ _ lm => lm end.

Definition Loop_result (st : Loop) : bool :=
  match st with running _ _ => true | returned r _ _ => r end.

Lemma scan_app n l1 l2 cs lm :
  scan n (l1 ++ l2) cs lm =
    match scan n l1 cs lm with
    | running cs' lm' => scan n l2 cs' lm'
    | returned r cs' lm' => returned r cs' lm'
    end.
Proof.
  revert cs lm. induction l1 as [|s l1 IH]; intros cs lm; cbn; [done|].
  destruct (n <=? _); [done|]. apply IH.
Qed.

Lemma scan_result n l cs lm : Loop_result (scan n l cs lm) = true.
Proof.
  revert cs lm. induction l as [|s l IH]; intros cs lm; cbn; [done|].
  destruct (n <=? _); [done|]. apply IH.
Qed.

Lemma scan_credits n l cs lm :
  Loop_credits (scan n l cs lm) = unionUntil n (map metaTileCredits l) cs.
Proof.
  revert cs lm. induction l as [|s l IH]; intros cs lm; cbn; [done|].
  unfold loadCreditsFromMetaTile. destruct (n <=? _); [done|]. apply IH.
Qed.

Lemma columns_scan d index noSuchFile n creditsId skip row_ (is_ : list Z) cs lm :
  let ms := List.filter (Index_meta index)
              (map (fun i => mkTileId (lod creditsId)
                                      (x creditsId + i * skip) row_) is_) in
  Forall (fun m => is_Some (d_tileFiles d !! (m, meta))) ms ->
  columns d index noSuchFile n creditsId skip row_ is_ cs lm =
    Ret (scan n (streamsOf d ms) cs lm).
Proof.
  revert cs lm. induction is_ as [|i rest IH]; intros cs lm ms Hall; [done|].
  subst ms. cbn [columns map List.filter] in *. unfold visitMetaTile.
  destruct (Index_meta index _) eqn:Hm; cbn [negb].
  - apply Forall_cons in Hall as [[s Hs] Hall].
    unfold Driver_inputTile, Driver_inputTile_null.
    unfold streamsOf. cbn [omap list_omap]. rewrite Hs.
    destruct noSuchFile; cbn; destruct (n <=? _); cbn; try done;
      apply IH, Hall.
  - cbn. apply IH, Hall.
Qed.

Lemma rows_scan d index noSuchFile n creditsId (js : list Z) cs lm :
  let metaOrder := idx_metaBinaryOrder index in
  let count := Z.shiftl 1 (CreditTile_binaryOrder - metaOrder) in
  let skip := Z.shiftl 1 metaOrder in
  let ms := List.filter (Index_meta index)
              (flat_map (regionRow index creditsId) js) in
  Forall (fun m => is_Some (d_tileFiles d !! (m, meta))) ms ->
  rows d index noSuchFile n creditsId skip count js cs lm =
    Ret (scan n (streamsOf d ms) cs lm).
Proof.
  intros metaOrder count skip. revert cs lm.
  induction js as [|j rest IH]; intros cs lm ms Hall; [done|].
  subst ms. cbn [rows flat_map] in *.
  rewrite List.filter_app in *. apply Forall_app in Hall as [Hrow Hrest].
  unfold regionRow in Hrow at 1. fold metaOrder count skip in Hrow.
  rewrite (columns_scan _ _ _ _ _ _ _ _ _ _ Hrow). cbn.
  unfold streamsOf. rewrite omap_app. rewrite scan_app.
  unfold regionRow at 1. fold metaOrder count skip.
  destruct (scan n _ cs lm) as [cs' lm'|r cs' lm']; [|done].
  apply IH, Hrest.
Qed.

(** With every stored metatile of the region readable, the loops collect
    what [scan] collects and report success. *)
Lemma creditsFromMetatiles_scan d index creditsId noSuchFile cs n lm :
  idx_metaBinaryOrder index <= CreditTile_binaryOrder ->
  Forall (fun m => is_Some (d_tileFiles d !! (m, meta)))
         (storedMetaIds index creditsId) ->
  let st := scan n (streamsOf d (storedMetaIds index creditsId)) cs lm in
  creditsFromMetatiles d index creditsId noSuchFile cs n lm =
    Ret (true, Loop_credits st, Loop_lastModified st).
Proof.
  intros Hord Hall. cbv zeta. unfold creditsFromMetatiles.
  destruct (CreditTile_binaryOrder <? idx_metaBinaryOrder index) eqn:Hlt;
    [apply Z.ltb_lt in Hlt; lia|].
  rewrite (rows_scan _ _ _ _ _ _ _ _ Hall).
  change (List.filter (Index_meta index) (flat_map _ _))
    with (storedMetaIds index creditsId).
  pose proof (scan_result n (streamsOf d (storedMetaIds index creditsId)) cs lm)
    as Hres.
  destruct (scan n _ cs lm) as [cs' lm'|r cs' lm']; cbn in *; [done|].
  by subst r.
Qed.

(** The credit ids [extract] enters into a tile: the string ids of the
    credits of [cs] that the registry knows. *)
Definition registered (cs : gset Z) (key : string) : Prop :=
  exists cid, cid ∈ cs /\ c_id <$> registryCredits cid = Some key.

Lemma extract_lookup_registered cs tile key :
  registered cs key -> ct_credits (extract cs tile) !! key = Some None.
Proof.
  unfold registered, extract. intros (cid & Hin & Hk).
  apply elem_of_elements in Hin.
  induction (elements cs) as [|c l IH]; [by apply elem_of_nil in Hin|].
  cbn. apply elem_of_cons in Hin as [<-|Hin].
  - destruct (registryCredits cid) as [cr|]; [|discriminate].
    cbn in *. injection Hk as <-. apply lookup_insert_eq.
  - destruct (registryCredits c) as [cr|]; [|by apply IH]. cbn.
    destruct (decide (c_id cr = key)) as [<-|Hne];
      [apply lookup_insert_eq|].
    rewrite lookup_insert_ne by done. by apply IH.
Qed.

Lemma extract_lookup_other cs tile key :
  ~ registered cs key ->
  ct_credits (extract cs tile) !! key = ct_credits tile !! key.
Proof.
  unfold registered, extract. intros Hnot.
  assert (Hl : forall cid, cid ∈ elements cs ->
                 c_id <$> registryCredits cid <> Some key).
  { intros cid Hin Hk. apply Hnot. exists cid.
    split; [by apply elem_of_elements|done]. }
  clear Hnot. induction (elements cs) as [|c l IH]; [done|]. cbn.
  assert (Hc := Hl c ltac:(left)).
  destruct (registryCredits c) as [cr|]; cbn in *.
  - rewrite lookup_insert_ne by congruence.
    apply IH. intros cid Hin. apply Hl. by right.
  - apply IH. intros cid Hin. apply Hl. by right.
Qed.

(** What a served credit tile holds: the stream is of type
    [TileFile::credits] and carries a credit tile that lists, each under its
    string id and without a value, exactly the credits of [cs] that the
    registry knows. *)
Definition carries (s : IStream) (cs : gset Z) : Prop :=
  is_type s = tileFileType credits /\
  exists tile, is_content s = creditTile tile /\
    forall key,
      (registered cs key -> ct_credits tile !! key = Some None) /\
      (~ registered cs key -> ct_credits tile !! key = None).

Lemma creditStream_carries d tileId cs lm :
  carries (creditStream d tileId (extract cs (mkCreditTile ∅)) lm) cs.
Proof.
  split; [reflexivity|]. eexists. split; [reflexivity|]. intros key. split.
  - apply extract_lookup_registered.
  - intros Hnot. by rewrite extract_lookup_other.
Qed.

(** *** The served config *)

(** C9. When the driver holds a config that parses to [props], the config
    served by [Delivery::input] (with or without [NullWhenNotFound]) parses
    to [props] with the driver options emptied and every other field as in
    [props]; parsing is assumed to invert [saveConfig]. *)
Theorem served_config_strips_driver_options (dl : Delivery) (rawStream : IStream)
    (bytes : Bytes) (props : Properties) :
  (forall p name, loadConfig (saveConfig p) name = Ret p) ->
  d_files (driver_ dl) !! config = Some rawStream ->
  is_content rawStream = stored bytes ->
  loadConfig bytes (is_name rawStream) = Ret props ->
  exists (s : IStream) (b : Bytes) (served : Properties),
    input dl config = Ret (Some s) /\
    input_null dl config = Ret (Some s) /\
    is_content s = stored b /\
    loadConfig b (is_name s) = Ret served /\
    p_driverOptions served = None /\
    p_id served = p_id props /\
    p_referenceFrame served = p_referenceFrame props /\
    p_lodRange served = p_lodRange props /\
    p_position served = p_position props /\
    p_credits served = p_credits props /\
    p_boundLayers served = p_boundLayers props.
Proof.
  intros Hrt Hfile Hcontent Hload.
  exists (mkIStream (is_type rawStream)
            (stored (saveConfig (resetDriverOptions props)))
            (is_lastModified rawStream) (is_name rawStream)),
         (saveConfig (resetDriverOptions props)), (resetDriverOptions props).
  unfold input, input_null, Driver_input, Driver_input_null, filterConfig.
  rewrite Hfile. cbn. unfold storedBytes. rewrite Hcontent. cbn.
  rewrite Hload. cbn. rewrite Hrt. repeat split; reflexivity.
Qed.

(** *** The two ways of asking: with and without [NullWhenNotFound] *)

(** The loops of [creditsFromMetatiles] over what the driver holds for the
    stored metatiles of the region ([None]: the driver cannot locate the
    metatile). *)
Fixpoint scanStored (noSuchFile : bool) (maxCount : Z)
    (l : list (option IStream)) (cs : gset Z) (lastModified : Z) : Res Loop :=
  match l with
  | [] => Ret (running cs lastModified)
  | None :: _ =>
      if noSuchFile then Throw NoSuchFile
      else Ret (returned false cs lastModified)
  | Some s :: rest =>
      let cs' := loadCreditsFromMetaTile s cs in
      let lm := is_lastModified s in
      let lastModified' := if lastModified <? lm then lm else lastModified in
      if maxCount <=? Z.of_nat (size cs')
      then Ret (returned true cs' lastModified')
      else scanStored noSuchFile maxCount rest cs' lastModified'
  end.

Definition lookupMeta (d : Driver) (m : TileId) : option IStream :=
  d_tileFiles d !! (m, meta).

Definition continueWith (r : Res Loop) (k : gset Z -> Z -> Res Loop)
    : Res Loop :=
  st ← r;
  match st with
  | running cs lm => k cs lm
  | returned _ _ _ => Ret st
  end.

Lemma scanStored_app nsf n l1 l2 cs lm :
  scanStored nsf n (l1 ++ l2) cs lm =
    continueWith (scanStored nsf n l1 cs lm) (scanStored nsf n l2).
Proof.
  revert cs lm. induction l1 as [|[s|] l1 IH]; intros cs lm; cbn.
  - done.
  - destruct (n <=? _); [done|]. apply IH.
  - by destruct nsf.
Qed.

Lemma columns_scanStored d index nsf n creditsId skip row_ (is_ : list Z) cs lm :
  columns d index nsf n creditsId skip row_ is_ cs lm =
    scanStored nsf n
      (lookupMeta d <$>
         List.filter (Index_meta index)
           (map (fun i => mkTileId (lod creditsId)
                                   (x creditsId + i * skip) row_) is_))
      cs lm.
Proof.
  revert cs lm. induction is_ as [|i rest IH]; intros cs lm; [done|].
  cbn [columns map List.filter]. unfold visitMetaTile.
  destruct (Index_meta index _) eqn:Hm; cbn [negb].
  - rewrite fmap_cons. unfold lookupMeta at 1.
    unfold Driver_inputTile, Driver_inputTile_null.
    destruct (d_tileFiles d !! (_, meta)) as [s|] eqn:Hs.
    + destruct nsf; cbn; destruct (n <=? _); cbn; try done; apply IH.
    + by destruct nsf.
  - cbn. apply IH.
Qed.

Lemma rows_scanStored d index nsf n creditsId (js : list Z) cs lm :
  rows d index nsf n creditsId (Z.shiftl 1 (idx_metaBinaryOrder index))
       (Z.shiftl 1 (CreditTile_binaryOrder - idx_metaBinaryOrder index))
       js cs lm =
    scanStored nsf n
      (lookupMeta d <$>
         List.filter (Index_meta index)
                     (flat_map (regionRow index creditsId) js))
      cs lm.
Proof.
  revert cs lm. induction js as [|j rest IH]; intros cs lm; [done|].
  cbn [rows flat_map]. rewrite List.filter_app, fmap_app, scanStored_app.
  rewrite columns_scanStored. unfold regionRow at 1. unfold continueWith.
  destruct (scanStored nsf n _ cs lm) as [[cs' lm'|r cs' lm']| |]; cbn;
    [apply IH|done..].
Qed.

Lemma creditsFromMetatiles_scanStored d index creditsId nsf cs n lm :
  idx_metaBinaryOrder index <= CreditTile_binaryOrder ->
  creditsFromMetatiles d index creditsId nsf cs n lm =
    st ← scanStored nsf n (lookupMeta d <$> storedMetaIds index creditsId)
           cs lm;
    Ret (Loop_result st, Loop_credits st, Loop_lastModified st).
Proof.
  intros Hord. unfold creditsFromMetatiles.
  destruct (CreditTile_binaryOrder <? idx_metaBinaryOrder index) eqn:Hlt;
    [apply Z.ltb_lt in Hlt; lia|].
  rewrite rows_scanStored.
  change (List.filter (Index_meta index) (flat_map _ _))
    with (storedMetaIds index creditsId).
  by destruct (scanStored nsf n _ cs lm) as [[cs' lm'|r cs' lm']| |].
Qed.

(** What the scan that throws does, read off the scan that does not. *)
Lemma scanStored_flags n l cs lm :
  match scanStored false n l cs lm with
  | Ret (returned false _ _) => scanStored true n l cs lm = Throw NoSuchFile
  | r => scanStored true n l cs lm = r
  end.
Proof.
  revert cs lm. induction l as [|[s|] l IH]; intros cs lm; cbn; [done| |done].
  destruct (n <=? _); [done|]. apply IH.
Qed.

Lemma credits_flags d index properties tileId :
  match credits_ d index properties tileId false with
  | Ret (Some s) => credits_ d index properties tileId true = Ret (Some s)
  | Ret None => credits_ d index properties tileId true = Throw NoSuchFile
  | Throw e => credits_ d index properties tileId true = Throw e
  | NullDeref => credits_ d index properties tileId true = NullDeref
  end.
Proof.
  unfold credits_. destruct (CreditTile_isCreditId tileId); cbn [negb]; [|done].
  destruct (_ <=? 1); [done|].
  destruct (Z_lt_le_dec CreditTile_binaryOrder (idx_metaBinaryOrder index))
    as [Hlt|Hle].
  { unfold creditsFromMetatiles. apply Z.ltb_lt in Hlt. by rewrite Hlt. }
  rewrite !creditsFromMetatiles_scanStored by done.
  pose proof (scanStored_flags (Z.of_nat (size (p_credits properties)))
                (lookupMeta d <$> storedMetaIds index (CreditTile_creditsId tileId))
                ∅ (-1)) as Hflags.
  destruct (scanStored false _ _ ∅ (-1)) as [[cs' lm'|[] cs' lm']| |];
    rewrite Hflags; done.
Qed.

(** The scan made for [NullWhenNotFound] never throws. *)
Lemma scanStored_null_ret n l cs lm :
  exists st, scanStored false n l cs lm = Ret st.
Proof.
  revert cs lm. induction l as [|[s|] l IH]; intros cs lm; cbn.
  - by eexists.
  - destruct (n <=? _); [by eexists|apply IH].
  - by eexists.
Qed.

Lemma credits_null_throw d index properties tileId e :
  credits_ d index properties tileId false = Throw e -> e <> NoSuchFile.
Proof.
  unfold credits_. destruct (CreditTile_isCreditId tileId); cbn [negb]; [|done].
  destruct (_ <=? 1); [done|].
  destruct (Z_lt_le_dec CreditTile_binaryOrder (idx_metaBinaryOrder index))
    as [Hlt|Hle].
  { unfold creditsFromMetatiles. apply Z.ltb_lt in Hlt. rewrite Hlt.
    by intros [= <-]. }
  rewrite creditsFromMetatiles_scanStored by done.
  destruct (scanStored_null_ret (Z.of_nat (size (p_credits properties)))
              (lookupMeta d <$> storedMetaIds index (CreditTile_creditsId tileId))
              ∅ (-1)) as [st ->].
  cbn. by destruct st as [cs' lm'|[] cs' lm'].
Qed.

(** For every tile file, flavor and tile id: the read with
    [NullWhenNotFound] returns a stream exactly when the read that throws
    returns the same stream, returns null exactly when that read fails with
    [NoSuchFile], and otherwise fails as that read does, with an error other
    than [NoSuchFile]; it never dereferences a null stream. *)
Theorem inputTile_overloads_agree (dl : Delivery) (tileId : TileId)
    (type : TileFile) (flavor : FileFlavor) :
  match inputTile_null dl tileId type flavor with
  | Ret (Some s) => inputTile dl tileId type flavor = Ret (Some s)
  | Ret None => inputTile dl tileId type flavor = Throw NoSuchFile
  | Throw e => inputTile dl tileId type flavor = Throw e /\ e <> NoSuchFile
  | NullDeref => False
  end /\
  (inputTile_null dl tileId type flavor = Ret None <->
   inputTile dl tileId type flavor = Throw NoSuchFile).
Proof.
  assert (Hmatch :
    match inputTile_null dl tileId type flavor with
    | Ret (Some s) => inputTile dl tileId type flavor = Ret (Some s)
    | Ret None => inputTile dl tileId type flavor = Throw NoSuchFile
    | Throw e => inputTile dl tileId type flavor = Throw e /\ e <> NoSuchFile
    | NullDeref => False
    end).
  { destruct type; unfold inputTile, inputTile_null.
    - unfold meta_. destruct (bool_decide (flavor = debug)); cbn; [done|].
      unfold Driver_inputTile, Driver_inputTile_null.
      by destruct (d_tileFiles (driver_ dl) !! (tileId, meta)).
    - unfold Driver_inputTile, Driver_inputTile_null.
      by destruct (d_tileFiles (driver_ dl) !! (tileId, mesh)).
    - unfold Driver_inputTile, Driver_inputTile_null.
      by destruct (d_tileFiles (driver_ dl) !! (tileId, atlas)).
    - unfold Driver_inputTile, Driver_inputTile_null.
      by destruct (d_tileFiles (driver_ dl) !! (tileId, navtile)).
    - unfold meta2d_. by destruct (Meta2d_isMetaId tileId).
    - unfold mask_, Driver_inputTile, Driver_inputTile_null.
      destruct (bool_decide (flavor = debug)); cbn;
        destruct (d_tileFiles (driver_ dl) !! (tileId, mesh)) as [s|]; cbn;
        try done; unfold storedBytes; by destruct (is_content s).
    - pose proof (credits_flags (driver_ dl) (index_ dl) (properties_ dl) tileId)
        as Hflags.
      pose proof (credits_null_throw (driver_ dl) (index_ dl) (properties_ dl)
                    tileId) as Hthrow.
      destruct (credits_ _ _ _ tileId false) as [[s|]|e|] eqn:Hf; try done.
      { split; [done|]. by apply Hthrow. }
      exfalso. revert Hf. unfold credits_.
      destruct (CreditTile_isCreditId tileId); cbn [negb]; [|done].
      destruct (_ <=? 1); [done|].
      destruct (Z_lt_le_dec CreditTile_binaryOrder
                  (idx_metaBinaryOrder (index_ dl))) as [Hlt|Hle].
      { unfold creditsFromMetatiles. apply Z.ltb_lt in Hlt. by rewrite Hlt. }
      rewrite creditsFromMetatiles_scanStored by done.
      destruct (scanStored_null_ret
                  (Z.of_nat (size (p_credits (properties_ dl))))
                  (lookupMeta (driver_ dl) <$>
                     storedMetaIds (index_ dl) (CreditTile_creditsId tileId))
                  ∅ (-1)) as [st ->].
      cbn. by destruct st as [cs' lm'|[] cs' lm']. }
  split; [exact Hmatch|].
  destruct (inputTile_null dl tileId type flavor) as [[s|]|e|].
  - rewrite Hmatch. split; discriminate.
  - by rewrite Hmatch.
  - destruct Hmatch as [-> Hne]. split; [discriminate|]. intros [= ->]. done.
  - done.
Qed.

(** For every file type: a stream from the read with [NullWhenNotFound] is
    what the read that throws returns as well; null comes back exactly
    where that read fails with [NoSuchFile] for a file other than the
    config; a failure comes from the config the driver holds, and is the
    failure of the read that throws; the only other outcome is the null
    dereference, exactly at a config the driver cannot locate, where the
    read that throws fails with [NoSuchFile]. *)
Theorem input_overloads_agree (dl : Delivery) (type : File) :
  (forall b name, loadConfig b name <> NullDeref) ->
  match input_null dl type with
  | Ret (Some s) => input dl type = Ret (Some s)
  | Ret None => input dl type = Throw NoSuchFile /\ type <> config
  | Throw e =>
      input dl type = Throw e /\ type = config /\
      is_Some (d_files (driver_ dl) !! config)
  | NullDeref => input dl type = Throw NoSuchFile /\ type = config
  end /\
  (input_null dl type = Ret None <->
   input dl type = Throw NoSuchFile /\ type <> config) /\
  (input_null dl type = NullDeref <->
   d_files (driver_ dl) !! config = None /\ type = config).
Proof.
  intros Hload.
  assert (Hmatch :
    match input_null dl type with
    | Ret (Some s) =>
        input dl type = Ret (Some s) /\
        is_Some (d_files (driver_ dl) !! type)
    | Ret None => input dl type = Throw NoSuchFile /\ type <> config
    | Throw e =>
        input dl type = Throw e /\ type = config /\
        is_Some (d_files (driver_ dl) !! config)
    | NullDeref =>
        input dl type = Throw NoSuchFile /\ type = config /\
        d_files (driver_ dl) !! config = None
    end).
  { destruct type; unfold input, input_null, Driver_input, Driver_input_null;
      destruct (d_files (driver_ dl) !! _) as [s|] eqn:Hfile; cbn; try done.
    unfold filterConfig, storedBytes. cbn.
    destruct (is_content s); cbn; try done.
    destruct (loadConfig b (is_name s)) as [props|e|] eqn:Hl; cbn; try done.
    by apply Hload in Hl. }
  destruct (input_null dl type) as [[s|]|e|].
  - destruct Hmatch as [-> Hsome]. split; [done|]. split.
    + split; [discriminate|]. by intros [[= ] _].
    + split; [discriminate|]. intros [Hnone ->]. rewrite Hnone in Hsome.
      by destruct Hsome.
  - destruct Hmatch as [-> Hne]. split; [done|].
    split; [done|]. split; [discriminate|]. by intros [_ ->].
  - destruct Hmatch as (-> & -> & Hsome). split; [done|].
    split; [split; [discriminate|by intros [_ ?]]|].
    split; [discriminate|]. intros [Hnone _]. rewrite Hnone in Hsome.
    by destruct Hsome.
  - destruct Hmatch as (-> & -> & Hnone). split; [done|].
    split; [split; [discriminate|by intros [_ ?]]|]. done.
Qed.

(** *** Failures of the credit scan *)

(** Credit tiles cannot be made from metatiles bigger than credit tiles:
    with more than one credit in the properties the read fails with
    [storage::Error], whatever the driver holds and however the caller
    asked. *)
Theorem credits_bigger_metatiles (d : Driver) (index : Index)
    (properties : Properties) (tileId : TileId) (noSuchFile : bool) :
  CreditTile_isCreditId tileId = true ->
  (1 < size (p_credits properties))%nat ->
  CreditTile_binaryOrder < idx_metaBinaryOrder index ->
  credits_ d index properties tileId noSuchFile = Throw StorageError.
Proof.
  intros Hid Hgt Hlt. unfold credits_. rewrite Hid. cbn [negb].
  destruct (_ <=? 1) eqn:H1; [apply Z.leb_le in H1; lia|].
  unfold creditsFromMetatiles. apply Z.ltb_lt in Hlt. by rewrite Hlt.
Qed.

Lemma scan_running n (l : list IStream) cs lm :
  Z.of_nat (size (cs ∪ ⋃ (metaTileCredits <$> l))) < n ->
  exists lm', scan n l cs lm = running (cs ∪ ⋃ (metaTileCredits <$> l)) lm'.
Proof.
  revert cs lm. induction l as [|s l IH]; intros cs lm Hlt.
  - exists lm. cbn [scan]. rewrite fmap_nil, union_list_nil.
    by rewrite union_empty_r_L.
  - rewrite fmap_cons, union_list_cons in Hlt. cbn [scan].
    unfold loadCreditsFromMetaTile.
    assert (Hassoc : cs ∪ (metaTileCredits s ∪ ⋃ (metaTileCredits <$> l)) =
                     cs ∪ metaTileCredits s ∪ ⋃ (metaTileCredits <$> l))
      by (by rewrite (assoc_L (∪))).
    rewrite Hassoc in Hlt.
    assert (Hle : (size (cs ∪ metaTileCredits s) <=
                   size (cs ∪ metaTileCredits s ∪ ⋃ (metaTileCredits <$> l)))%nat)
      by (apply subseteq_size, union_subseteq_l).
    destruct (n <=? _) eqn:Hn; [apply Z.leb_le in Hn; lia|].
    destruct (IH (cs ∪ metaTileCredits s)
                 (if lm <? is_lastModified s then is_lastModified s else lm) Hlt)
      as [lm' ->].
    exists lm'. rewrite fmap_cons, union_list_cons. by rewrite Hassoc.
Qed.

Lemma scanStored_readable nsf n (l : list IStream) cs lm :
  scanStored nsf n (Some <$> l) cs lm = Ret (scan n l cs lm).
Proof.
  revert cs lm. induction l as [|s l IH]; intros cs lm; cbn; [done|].
  destruct (n <=? _); [done|]. apply IH.
Qed.

Lemma lookupMeta_readable d (ms : list TileId) :
  Forall (fun m => is_Some (d_tileFiles d !! (m, meta))) ms ->
  lookupMeta d <$> ms = Some <$> streamsOf d ms.
Proof.
  induction 1 as [|m ms [s Hs] _ IH]; [done|].
  unfold streamsOf. cbn. unfold lookupMeta at 1. rewrite Hs. cbn.
  f_equal. exact IH.
Qed.

Lemma scan_running_inv n (l : list IStream) cs lm cs' lm' :
  scan n l cs lm = running cs' lm' ->
  cs' = cs ∪ ⋃ (map metaTileCredits l) /\
  (l = [] \/ Z.of_nat (size cs') < n).
Proof.
  revert cs lm. induction l as [|s l IH]; intros cs lm; cbn [scan].
  - intros [= <- <-]. split; [|by left].
    cbn [map]. by rewrite union_list_nil, union_empty_r_L.
  - unfold loadCreditsFromMetaTile. destruct (n <=? _) eqn:Hn; [done|].
    intros Hrun. apply IH in Hrun as [-> Hb]. split.
    + cbn [map]. rewrite union_list_cons. by rewrite (assoc_L (∪)).
    + right. destruct Hb as [->|Hb]; [|done].
      cbn [map]. rewrite union_list_nil, union_empty_r_L.
      by apply Z.leb_gt in Hn.
Qed.

(** C4. For a valid credit-tile id: when the properties list at most one
    credit, the served credit tile holds the credits of the properties;
    otherwise (metatiles not bigger than credit tiles) it holds the union
    of the credit sets of the stored metatiles under the credit tile, taken
    in scan order up to the first metatile at which the number of collected
    credits reaches the number of credits in the properties, or of all of
    them when that number is never reached. Only the metatiles up to that
    point have to be readable: what the driver holds for the metatiles
    [after] it plays no role. *)
Theorem credits_from_properties_or_metatiles (d : Driver) (index : Index)
    (properties : Properties) (tileId : TileId) (noSuchFile : bool) :
  CreditTile_isCreditId tileId = true ->
  ((size (p_credits properties) <= 1)%nat ->
     exists s,
       credits_ d index properties tileId noSuchFile = Ret (Some s) /\
       carries s (p_credits properties))
  /\
  (forall before after : list TileId,
   (1 < size (p_credits properties))%nat ->
   idx_metaBinaryOrder index <= CreditTile_binaryOrder ->
   storedMetaIds index (CreditTile_creditsId tileId) = before ++ after ->
   Forall (fun m => is_Some (d_tileFiles d !! (m, meta))) before ->
   (after = [] \/
    (size (p_credits properties) <=
     size (⋃ (map metaTileCredits (streamsOf d before))))%nat) ->
   exists (s : IStream) (cs : gset Z) (k : nat),
     credits_ d index properties tileId noSuchFile = Ret (Some s) /\
     carries s cs /\
     let sets := map metaTileCredits (streamsOf d before) in
     let maxCount := Z.of_nat (size (p_credits properties)) in
     cs = unionUntil maxCount sets ∅ /\
     (k <= length sets)%nat /\
     cs = ⋃ (take k sets) /\
     (k = length sets \/ maxCount <= Z.of_nat (size cs)) /\
     (forall k', (k' < k)%nat -> Z.of_nat (size (⋃ (take k' sets))) < maxCount)).
Proof.
  intros Hid. unfold credits_. rewrite Hid. cbn [negb]. split.
  - intros Hle. destruct (_ <=? 1) eqn:H1; [|apply Z.leb_gt in H1; lia].
    eexists. split; [reflexivity|]. apply creditStream_carries.
  - intros before after Hgt Hord Hstored Hbefore Hafter.
    destruct (_ <=? 1) eqn:H1; [apply Z.leb_le in H1; lia|]. clear H1.
    rewrite creditsFromMetatiles_scanStored by done.
    rewrite Hstored, fmap_app, scanStored_app.
    rewrite (lookupMeta_readable _ _ Hbefore), scanStored_readable.
    set (streams := streamsOf d before) in *.
    set (n := Z.of_nat (size (p_credits properties))).
    destruct (unionUntil_prefix n (map metaTileCredits streams) ∅)
      as (k & Hk & Heq & Hstop & Hmin).
    assert (Hempty : forall X : gset Z, ∅ ∪ X = X)
      by (intros; apply union_empty_l_L).
    rewrite !Hempty in Heq, Hstop.
    pose proof (scan_credits n streams ∅ (-1)) as Hcs.
    pose proof (scan_result n streams ∅ (-1)) as Hres.
    assert (Hrest :
      forall cs,
        cs = unionUntil n (map metaTileCredits streams) ∅ ->
        (k <= length (map metaTileCredits streams))%nat /\
        cs = ⋃ (take k (map metaTileCredits streams)) /\
        (k = length (map metaTileCredits streams) \/
         n <= Z.of_nat (size cs)) /\
        (forall k', (k' < k)%nat ->
           Z.of_nat (size (⋃ (take k' (map metaTileCredits streams)))) < n)).
    { intros cs ->. split; [exact Hk|]. split; [exact Heq|].
      rewrite Heq. split; [exact Hstop|].
      intros k' Hk'. destruct k' as [|k'].
      - rewrite take_0, union_list_nil, size_empty. lia.
      - specialize (Hmin (S k') ltac:(lia)). by rewrite Hempty in Hmin. }
    destruct (scan n streams ∅ (-1)) as [cs' lm'|r cs' lm'] eqn:Hscan;
      cbn [Loop_credits Loop_result] in Hcs, Hres.
    + apply scan_running_inv in Hscan as [Hunion Hb].
      rewrite Hempty in Hunion.
      assert (after = []) as ->.
      { destruct Hafter as [->|Hreach]; [done|]. exfalso.
        destruct Hb as [Hnil|Hlt].
        - rewrite Hnil in Hreach. cbn [map] in Hreach.
          rewrite union_list_nil, size_empty in Hreach. lia.
        - rewrite Hunion in Hlt. lia. }
      cbn. eexists _, cs', k. split; [reflexivity|].
      split; [apply creditStream_carries|]. split; [exact Hcs|].
      by apply Hrest.
    + subst r. cbn. eexists _, cs', k. split; [reflexivity|].
      split; [apply creditStream_carries|]. split; [exact Hcs|].
      by apply Hrest.
Qed.

(** A stored metatile that the driver cannot locate, reached before the
    scan has collected as many credits as the properties list, makes the
    whole credit tile not found: null with [NullWhenNotFound], [NoSuchFile]
    without. No credit tile is made from a part of the metatiles. *)
Theorem credits_unreadable_metatile (d : Driver) (index : Index)
    (properties : Properties) (tileId : TileId)
    (before after : list TileId) (missing : TileId) :
  CreditTile_isCreditId tileId = true ->
  (1 < size (p_credits properties))%nat ->
  idx_metaBinaryOrder index <= CreditTile_binaryOrder ->
  storedMetaIds index (CreditTile_creditsId tileId) =
    before ++ missing :: after ->
  Forall (fun m => is_Some (d_tileFiles d !! (m, meta))) before ->
  d_tileFiles d !! (missing, meta) = None ->
  (size (⋃ (metaTileCredits <$> streamsOf d before))
     < size (p_credits properties))%nat ->
  credits_ d index properties tileId false = Ret None /\
  credits_ d index properties tileId true = Throw NoSuchFile.
Proof.
  intros Hid Hgt Hord Hstored Hbefore Hmissing Hfew.
  assert (Hscan : forall nsf,
            scanStored nsf (Z.of_nat (size (p_credits properties)))
              (lookupMeta d <$> storedMetaIds index (CreditTile_creditsId tileId))
              ∅ (-1) =
            if nsf then Throw NoSuchFile
            else Ret (returned false
                        (∅ ∪ ⋃ (metaTileCredits <$> streamsOf d before))
                        (Loop_lastModified
                           (scan (Z.of_nat (size (p_credits properties)))
                                 (streamsOf d before) ∅ (-1))))).
  { intros nsf. rewrite Hstored, fmap_app, scanStored_app.
    rewrite (lookupMeta_readable _ _ Hbefore), scanStored_readable.
    destruct (scan_running (Z.of_nat (size (p_credits properties)))
                (streamsOf d before) ∅ (-1)) as [lm' Hrun].
    { rewrite union_empty_l_L. lia. }
    rewrite Hrun. cbn. unfold lookupMeta. rewrite Hmissing. by destruct nsf. }
  unfold credits_. rewrite Hid. cbn [negb].
  destruct (_ <=? 1) eqn:H1; [apply Z.leb_le in H1; lia|].
  rewrite !creditsFromMetatiles_scanStored by done. rewrite !Hscan. done.
Qed.

(** *** What the credit tile holds *)

(** How many metatile streams the scan reads before it stops. *)
Fixpoint scanned (maxCount : Z) (l : list IStream) (cs : gset Z) : nat :=
  match l with
  | [] => O
  | s :: rest =>
      let cs' := loadCreditsFromMetaTile s cs in
      if maxCount <=? Z.of_nat (size cs') then 1%nat
      else S (scanned maxCount rest cs')
  end.

(** The latest modification time among [lm] and the streams of [l]. *)
Definition latest (l : list IStream) (lm : Z) : Z :=
  fold_left (fun acc s => Z.max acc (is_lastModified s)) l lm.

Lemma scan_scanned n l cs lm :
  Loop_credits (scan n l cs lm) =
    cs ∪ ⋃ (map metaTileCredits (take (scanned n l cs) l)) /\
  Loop_lastModified (scan n l cs lm) = latest (take (scanned n l cs) l) lm.
Proof.
  revert cs lm. induction l as [|s l IH]; intros cs lm.
  - cbn [scan scanned take map Loop_credits Loop_lastModified].
    rewrite union_list_nil, union_empty_r_L. split; reflexivity.
  - cbn [scan scanned]. unfold loadCreditsFromMetaTile.
    assert (Hmax : (if lm <? is_lastModified s then is_lastModified s else lm)
                   = Z.max lm (is_lastModified s)).
    { destruct (lm <? is_lastModified s) eqn:Hlt;
        [apply Z.ltb_lt in Hlt|apply Z.ltb_ge in Hlt]; lia. }
    destruct (n <=? _).
    + rewrite firstn_cons, take_0. cbn [Loop_credits Loop_lastModified map].
      rewrite union_list_singleton_L. split; [done|]. cbn. exact Hmax.
    + destruct (IH (cs ∪ metaTileCredits s)
                   (if lm <? is_lastModified s then is_lastModified s else lm))
        as [Hc Hl].
      rewrite Hc, Hl, firstn_cons. cbn [map]. rewrite union_list_cons.
      split; [by rewrite (assoc_L (∪))|]. unfold latest. cbn [fold_left].
      by rewrite Hmax.
Qed.

Lemma latest_ge_init l lm : lm <= latest l lm.
Proof.
  revert lm. induction l as [|s l IH]; intros lm; cbn; [lia|].
  etransitivity; [|apply IH]. lia.
Qed.

Lemma latest_ge l lm s : s ∈ l -> is_lastModified s <= latest l lm.
Proof.
  revert lm. induction l as [|s' l IH]; intros lm Hin.
  - by apply elem_of_nil in Hin.
  - cbn. apply elem_of_cons in Hin as [<-|Hin]; [|by apply IH].
    etransitivity; [|apply latest_ge_init]. lia.
Qed.

(** The modification time of a credit tile made from metatiles is the
    latest modification time of the metatiles that were read when that is
    positive, and the driver's own otherwise; when it is positive, no
    metatile that was read is newer than the credit tile. *)
Theorem credits_lastModified (d : Driver) (index : Index)
    (properties : Properties) (tileId : TileId) (noSuchFile : bool) :
  CreditTile_isCreditId tileId = true ->
  (1 < size (p_credits properties))%nat ->
  idx_metaBinaryOrder index <= CreditTile_binaryOrder ->
  Forall (fun m => is_Some (d_tileFiles d !! (m, meta)))
         (storedMetaIds index (CreditTile_creditsId tileId)) ->
  exists (s : IStream) (read : list IStream),
    credits_ d index properties tileId noSuchFile = Ret (Some s) /\
    read = take (scanned (Z.of_nat (size (p_credits properties)))
                   (streamsOf d (storedMetaIds index
                                   (CreditTile_creditsId tileId))) ∅)
                (streamsOf d (storedMetaIds index
                                (CreditTile_creditsId tileId))) /\
    is_lastModified s =
      (if latest read (-1) <=? 0 then d_lastModified d else latest read (-1)) /\
    (forall r, r ∈ read -> 0 < latest read (-1) ->
               is_lastModified r <= is_lastModified s).
Proof.
  intros Hid Hgt Hord Hall. unfold credits_. rewrite Hid. cbn [negb].
  destruct (_ <=? 1) eqn:H1; [apply Z.leb_le in H1; lia|]. clear H1.
  rewrite (creditsFromMetatiles_scan _ _ _ _ _ _ _ Hord Hall). cbn.
  destruct (scan_scanned (Z.of_nat (size (p_credits properties)))
              (streamsOf d (storedMetaIds index (CreditTile_creditsId tileId)))
              ∅ (-1)) as [_ Hl].
  eexists _, _. split; [reflexivity|]. split; [reflexivity|].
  cbn [creditStream is_lastModified]. rewrite Hl. split; [reflexivity|].
  intros r Hr Hpos.
  destruct (_ <=? 0) eqn:H0; [apply Z.leb_le in H0; lia|].
  by apply latest_ge.
Qed.

(** When the properties list every credit that the metatiles carry,
    stopping the scan early loses nothing: the served credit tile holds the
    credits of all stored metatiles under the credit tile. *)
Theorem credits_of_all_metatiles (d : Driver) (index : Index)
    (properties : Properties) (tileId : TileId) (noSuchFile : bool) :
  CreditTile_isCreditId tileId = true ->
  (1 < size (p_credits properties))%nat ->
  idx_metaBinaryOrder index <= CreditTile_binaryOrder ->
  Forall (fun m => is_Some (d_tileFiles d !! (m, meta)))
         (storedMetaIds index (CreditTile_creditsId tileId)) ->
  Forall (fun s => metaTileCredits s ⊆ p_credits properties)
         (streamsOf d (storedMetaIds index (CreditTile_creditsId tileId))) ->
  exists s,
    credits_ d index properties tileId noSuchFile = Ret (Some s) /\
    carries s (⋃ (map metaTileCredits
                    (streamsOf d (storedMetaIds index
                                    (CreditTile_creditsId tileId))))).
Proof.
  intros Hid Hgt Hord Hall Hsub. unfold credits_. rewrite Hid. cbn [negb].
  destruct (_ <=? 1) eqn:H1; [apply Z.leb_le in H1; lia|]. clear H1.
  rewrite (creditsFromMetatiles_scan _ _ _ _ _ _ _ Hord Hall). cbn.
  rewrite scan_credits, (unionUntil_all (p_credits properties)).
  - rewrite union_empty_l_L. eexists. split; [reflexivity|].
    apply creditStream_carries.
  - apply empty_subseteq.
  - apply Forall_forall. intros c Hc. apply list_elem_of_In in Hc.
    apply List.in_map_iff in Hc as (s & <- & Hs).
    apply list_elem_of_In in Hs. by eapply Forall_forall in Hsub.
Qed.

(** The credit tile lists exactly the credits of the given set that the
    registry knows, each under its string id and without a value; a credit
    id unknown to the registry is left out and does not fail the read. *)
Theorem extract_keeps_registered (cs : gset Z) (key : string) :
  (registered cs key ->
   ct_credits (extract cs (mkCreditTile ∅)) !! key = Some None) /\
  (~ registered cs key ->
   ct_credits (extract cs (mkCreditTile ∅)) !! key = None).
Proof.
  split.
  - apply extract_lookup_registered.
  - intros Hnot. by rewrite extract_lookup_other.
Qed.

(** *** Filtering a config twice *)

Lemma resetDriverOptions_idem (p : Properties) :
  resetDriverOptions (resetDriverOptions p) = resetDriverOptions p.
Proof. reflexivity. Qed.

(** Filtering is idempotent: a served config, filtered again, is served
    unchanged (parsing is assumed to invert [saveConfig]). *)
Theorem filterConfig_idempotent (rawStream s : IStream) :
  (forall p name, loadConfig (saveConfig p) name = Ret p) ->
  filterConfig (Some rawStream) = Ret (Some s) ->
  filterConfig (Some s) = Ret (Some s).
Proof.
  intros Hrt. unfold filterConfig, storedBytes; cbn.
  destruct (is_content rawStream) as [b| | |]; cbn; try done.
  destruct (loadConfig b (is_name rawStream)) as [props| |]; cbn; try done.
  intros [= <-]. cbn. by rewrite Hrt.
Qed.

End Delivery.

(** *** A concrete tile set behind the delivery *)

(** Modelled from the spec: section 6.1, the config is a key-value map with
    the keys id, referenceFrame, lodRange, position, credits, boundLayers
    and driverOptions. Stored files are kept as such maps here. *)
Inductive Value :=
| vString (s : string)
| vNumbers (l : list Z)
| vOptions (o : Z).

Abbreviation KeyValues := (list (string * Value)).

Fixpoint kvFind (k : string) (kv : KeyValues) : option Value :=
  match kv with
  | [] => None
  | (k', v) :: rest => if String.eqb k k' then Some v else kvFind k rest
  end.

Definition kvSaveConfig (p : FullTileSetProperties Z) : KeyValues :=
  [ ("id", vString (p_id p));
    ("referenceFrame", vString (p_referenceFrame p));
    ("lodRange", vNumbers [(p_lodRange p).1; (p_lodRange p).2]);
    ("position", vNumbers (p_position p));
    ("credits", vNumbers (elements (p_credits p)));
    ("boundLayers", vNumbers (elements (p_boundLayers p))) ]%string
  ++ match p_driverOptions p with
     | Some o => [("driverOptions"%string, vOptions o)]
     | None => []
     end.

Definition kvLoadConfig (kv : KeyValues) (name : StreamName)
    : Res (FullTileSetProperties Z) :=
  match kvFind "id" kv, kvFind "referenceFrame" kv, kvFind "lodRange" kv,
        kvFind "position" kv, kvFind "credits" kv, kvFind "boundLayers" kv
  with
  | Some (vString i), Some (vString rf), Some (vNumbers [a; b]),
    Some (vNumbers pos), Some (vNumbers cr), Some (vNumbers bl) =>
      Ret (mkProperties i rf (a, b) pos (list_to_set cr) (list_to_set bl)
             match kvFind "driverOptions" kv with
             | Some (vOptions o) => Some o
             | _ => None
             end)
  | _, _, _, _, _, _ => Throw FormatError
  end.

Definition kvMetaTileCredits (s : @IStream KeyValues) : gset Z :=
  match is_content s with
  | stored kv =>
      match kvFind "credits" kv with
      | Some (vNumbers l) => list_to_set l
      | _ => ∅
      end
  | _ => ∅
  end.

(** 2D metatiles and credit tiles are aligned to 256 tiles. *)
Definition aligned256 (t : TileId) : bool :=
  (Z.land (x t) 255 =? 0) && (Z.land (y t) 255 =? 0).

Definition sampleRegistry (cid : Z) : option Credit :=
  if cid =? 1 then Some (mkCredit "citationtech" 1)
  else if cid =? 2 then Some (mkCredit "melown" 2)
  else if cid =? 3 then Some (mkCredit "seznamcz" 3)
  else None.

Definition sampleProperties : FullTileSetProperties Z :=
  mkProperties "terrain" "webmerc" (3, 9) [0; 0; 0] {[1; 2; 3]} ∅ (Some 5).

Definition storedFile (kv : KeyValues) (lm : Z) (path : string)
    : @IStream KeyValues :=
  mkIStream (fileType config) (stored kv) lm (storedName path).

Definition sampleMetaTiles : gmap (TileId * TileFile) (@IStream KeyValues) :=
  <[(mkTileId 9 0 0, meta) :=
      storedFile [("credits"%string, vNumbers [1; 2])] 100 "9-0-0.meta"]>
  (<[(mkTileId 9 128 0, meta) :=
      storedFile [("credits"%string, vNumbers [2; 3])] 200 "9-128-0.meta"]>
  (<[(mkTileId 9 128 128, meta) :=
      storedFile [("credits"%string, vNumbers [3])] 300 "9-128-128.meta"]>
   ∅)).

Definition sampleDriver : @Driver KeyValues :=
  mkDriver (<[config := storedFile (kvSaveConfig sampleProperties) 50
                          "tileset.conf"]> ∅)
           sampleMetaTiles ∅ "/ts" 400 false.

Definition sampleIndex : Index :=
  mkIndex ∅ 7 {[mkTileId 9 0 0; mkTileId 9 128 0; mkTileId 9 128 128]}.

Definition sampleDelivery : @Delivery KeyValues Z :=
  mkDelivery sampleDriver sampleProperties sampleIndex.

(** The same tile set after its config file has gone. *)
Definition noConfigDelivery : @Delivery KeyValues Z :=
  mkDelivery (mkDriver ∅ sampleMetaTiles ∅ "/ts" 400 false)
             sampleProperties sampleIndex.

Lemma kvLoad_kvSave (p : FullTileSetProperties Z) (name : StreamName) :
  kvLoadConfig (kvSaveConfig p) name = Ret p.
Proof.
  destruct p as [i rf [a b] pos cr bl [o|]]; cbn;
    by rewrite !list_to_set_elements_L.
Qed.

Lemma mask_without_mesh_witness :
  inputTile aligned256 aligned256 id 8 sampleRegistry kvMetaTileCredits
    sampleDelivery (mkTileId 9 5 5) mask debug =
    Ret (Some (transparentMask sampleDriver (mkTileId 9 5 5))) /\
  inputTile aligned256 aligned256 id 8 sampleRegistry kvMetaTileCredits
    sampleDelivery (mkTileId 9 5 5) mask regular = Throw NoSuchFile /\
  inputTile_null aligned256 aligned256 id 8 sampleRegistry kvMetaTileCredits
    sampleDelivery (mkTileId 9 5 5) mask regular = Ret None.
Proof.
  destruct (mask_without_mesh aligned256 aligned256 id 8 sampleRegistry
              kvMetaTileCredits sampleDelivery (mkTileId 9 5 5) debug)
    as [Hdebug _]; [vm_compute; reflexivity|].
  destruct (mask_without_mesh aligned256 aligned256 id 8 sampleRegistry
              kvMetaTileCredits sampleDelivery (mkTileId 9 5 5) regular)
    as [_ Hregular]; [vm_compute; reflexivity|].
  destruct (Hdebug eq_refl) as (H1 & _ & _).
  destruct Hregular as [H2 H3]; [discriminate|].
  split; [exact H1|]. split; [exact H2|exact H3].
Defined.

Lemma served_config_strips_driver_options_witness :
  exists s b,
    input kvLoadConfig kvSaveConfig sampleDelivery config = Ret (Some s) /\
    is_content s = stored b /\
    kvLoadConfig b (is_name s) =
      Ret (mkProperties "terrain" "webmerc" (3, 9) [0; 0; 0] {[1; 2; 3]} ∅
             None).
Proof.
  destruct (served_config_strips_driver_options kvLoadConfig kvSaveConfig
              sampleDelivery
              (storedFile (kvSaveConfig sampleProperties) 50 "tileset.conf")
              (kvSaveConfig sampleProperties) sampleProperties)
    as (s & b & served & Hin & _ & Hc & Hload & Hopt & Hid & Hrf & Hlr & Hpos
        & Hcr & Hbl).
  - exact kvLoad_kvSave.
  - vm_compute; reflexivity.
  - reflexivity.
  - apply kvLoad_kvSave.
  - exists s, b. split; [exact Hin|]. split; [exact Hc|].
    rewrite Hload. f_equal. destruct served; cbn in *. by subst.
Defined.

(** The same tile set with its third metatile gone. *)
Definition twoMetaTilesDriver : @Driver KeyValues :=
  mkDriver ∅ (delete (mkTileId 9 128 128, meta) sampleMetaTiles) ∅ "/ts" 400
           false.

Lemma credits_from_properties_or_metatiles_witness :
  exists s,
    credits_ aligned256 id 8 sampleRegistry kvMetaTileCredits
      twoMetaTilesDriver sampleIndex sampleProperties (mkTileId 9 0 0) true =
      Ret (Some s) /\
    carries sampleRegistry s {[1; 2; 3]}.
Proof.
  destruct (credits_from_properties_or_metatiles aligned256 id 8
              sampleRegistry kvMetaTileCredits twoMetaTilesDriver sampleIndex
              sampleProperties (mkTileId 9 0 0) true) as [_ Hmany];
    [reflexivity|].
  destruct (Hmany [mkTileId 9 0 0; mkTileId 9 128 0] [mkTileId 9 128 128])
    as (s & cs & k & Hres & Hcarries & Hcs & _).
  - vm_compute. lia.
  - cbn. lia.
  - vm_compute. reflexivity.
  - repeat constructor; eexists; vm_compute; reflexivity.
  - right. vm_compute. lia.
  - exists s. split; [exact Hres|]. rewrite Hcs in Hcarries. exact Hcarries.
Defined.

(** The same tile set with two of its three metatiles gone. *)
Definition oneMetaTileDriver : @Driver KeyValues :=
  mkDriver ∅
    (<[(mkTileId 9 0 0, meta) :=
         storedFile [("credits"%string, vNumbers [1; 2])] 100 "9-0-0.meta"]> ∅)
    ∅ "/ts" 400 false.

Lemma kvLoadConfig_not_null (kv : KeyValues) (name : StreamName) :
  kvLoadConfig kv name <> NullDeref.
Proof. unfold kvLoadConfig. repeat case_match; discriminate. Qed.

Lemma input_overloads_agree_witness :
  input_null kvLoadConfig kvSaveConfig noConfigDelivery tileIndex = Ret None /\
  input kvLoadConfig kvSaveConfig noConfigDelivery tileIndex =
    Throw NoSuchFile.
Proof.
  destruct (input_overloads_agree kvLoadConfig kvSaveConfig noConfigDelivery
              tileIndex kvLoadConfig_not_null) as (_ & Hnull & _).
  split; [|reflexivity]. apply Hnull. split; [reflexivity|discriminate].
Defined.

Lemma credits_bigger_metatiles_witness :
  credits_ aligned256 id 8 sampleRegistry kvMetaTileCredits sampleDriver
    (mkIndex ∅ 9 ∅) sampleProperties (mkTileId 9 0 0) false =
  Throw StorageError.
Proof.
  apply (credits_bigger_metatiles aligned256 id 8 sampleRegistry
           kvMetaTileCredits sampleDriver (mkIndex ∅ 9 ∅) sampleProperties
           (mkTileId 9 0 0) false).
  - reflexivity.
  - vm_compute. lia.
  - cbn. lia.
Defined.

Lemma credits_unreadable_metatile_witness :
  credits_ aligned256 id 8 sampleRegistry kvMetaTileCredits oneMetaTileDriver
    sampleIndex sampleProperties (mkTileId 9 0 0) false = Ret None /\
  credits_ aligned256 id 8 sampleRegistry kvMetaTileCredits oneMetaTileDriver
    sampleIndex sampleProperties (mkTileId 9 0 0) true = Throw NoSuchFile.
Proof.
  apply (credits_unreadable_metatile aligned256 id 8 sampleRegistry
           kvMetaTileCredits oneMetaTileDriver sampleIndex sampleProperties
           (mkTileId 9 0 0) [mkTileId 9 0 0] [mkTileId 9 128 128]
           (mkTileId 9 128 0)).
  - reflexivity.
  - vm_compute. lia.
  - cbn. lia.
  - vm_compute. reflexivity.
  - repeat constructor. eexists. vm_compute. reflexivity.
  - vm_compute. reflexivity.
  - vm_compute. lia.
Defined.

Lemma credits_lastModified_witness :
  exists s,
    credits_ aligned256 id 8 sampleRegistry kvMetaTileCredits sampleDriver
      sampleIndex sampleProperties (mkTileId 9 0 0) true = Ret (Some s) /\
    is_lastModified s = 200.
Proof.
  destruct (credits_lastModified aligned256 id 8 sampleRegistry
              kvMetaTileCredits sampleDriver sampleIndex sampleProperties
              (mkTileId 9 0 0) true) as (s & read & Hres & Hread & Hlm & _).
  - reflexivity.
  - vm_compute. lia.
  - cbn. lia.
  - vm_compute. repeat constructor; eexists; reflexivity.
  - exists s. split; [exact Hres|]. rewrite Hlm, Hread. vm_compute. reflexivity.
Defined.

Lemma credits_of_all_metatiles_witness :
  exists s,
    credits_ aligned256 id 8 sampleRegistry kvMetaTileCredits sampleDriver
      sampleIndex sampleProperties (mkTileId 9 0 0) false = Ret (Some s) /\
    carries sampleRegistry s
      (⋃ (map kvMetaTileCredits
            (streamsOf sampleDriver
               (storedMetaIds 8 sampleIndex (mkTileId 9 0 0))))).
Proof.
  apply (credits_of_all_metatiles aligned256 id 8 sampleRegistry
           kvMetaTileCredits sampleDriver sampleIndex sampleProperties
           (mkTileId 9 0 0) false).
  - reflexivity.
  - vm_compute. lia.
  - cbn. lia.
  - vm_compute. repeat constructor; eexists; reflexivity.
  - refine (bool_decide_unpack _ _). vm_compute. exact I.
Defined.

Lemma filterConfig_idempotent_witness :
  filterConfig kvLoadConfig kvSaveConfig
    (Some (storedFile (kvSaveConfig (resetDriverOptions sampleProperties)) 50
             "tileset.conf")) =
  Ret (Some (storedFile (kvSaveConfig (resetDriverOptions sampleProperties)) 50
               "tileset.conf")).
Proof.
  apply (filterConfig_idempotent kvLoadConfig kvSaveConfig
           (storedFile (kvSaveConfig sampleProperties) 50 "tileset.conf")).
  - exact kvLoad_kvSave.
  - vm_compute. reflexivity.
Defined.

(** The scan stops at the second metatile: the modification time of the
    third one (300) is not seen. *)
Example credits_stop_early :
  credits_ aligned256 id 8 sampleRegistry kvMetaTileCredits sampleDriver
    sampleIndex sampleProperties (mkTileId 9 0 0) false =
  Ret (Some (creditStream sampleDriver (mkTileId 9 0 0)
               (mkCreditTile (<["citationtech"%string := None]>
                             (<["melown"%string := None]>
                             (<["seznamcz"%string := None]> ∅)))) 200)).
Proof. vm_compute. reflexivity. Qed.

Example credits_invalid_id :
  credits_ aligned256 id 8 sampleRegistry kvMetaTileCredits sampleDriver
    sampleIndex sampleProperties (mkTileId 9 1 0) true = Throw NoSuchFile /\
  credits_ aligned256 id 8 sampleRegistry kvMetaTileCredits sampleDriver
    sampleIndex sampleProperties (mkTileId 9 1 0) false = Ret None.
Proof. split; reflexivity. Qed.

(** C5 at the config key: where the driver cannot locate the config, the
    read that throws fails with [NoSuchFile], but the read with
    [NullWhenNotFound] does not return the null stream: [filterConfig]
    dereferences it. Reads of other missing files follow the dichotomy. *)
Theorem input_null_config_dereferences_null :
  input kvLoadConfig kvSaveConfig noConfigDelivery config = Throw NoSuchFile /\
  input_null kvLoadConfig kvSaveConfig noConfigDelivery config = NullDeref /\
  input_null kvLoadConfig kvSaveConfig noConfigDelivery config <> Ret None /\
  input kvLoadConfig kvSaveConfig noConfigDelivery tileIndex =
    Throw NoSuchFile /\
  input_null kvLoadConfig kvSaveConfig noConfigDelivery tileIndex = Ret None.
Proof.
  destruct (input_missing_config kvLoadConfig kvSaveConfig noConfigDelivery)
    as [Hthrow Hnull]; [reflexivity|].
  rewrite Hthrow, Hnull. repeat split; discriminate.
Qed.

End DeliveryImpl.

(* ===================================================================== *)
(** ** vts02vts: the vts0 -> vts encoder                                 *)
(* ===================================================================== *)

Module Vts02Vts.

(** *** Height maps *)

(** A height stored in a height map: a number, or the value +oo that marks
    an invalid pixel. Heights are taken in fixed units. *)
Inductive Height := finite (z : Z) | infinity.

#[global] Instance Height_eq_dec : EqDecision Height.
Proof. solve_decision. Defined.

(** [a < b] on heights. *)
Definition Height_lt (a b : Height) : bool :=
  match a, b with
  | finite p, finite q => p <? q
  | finite _, infinity => true
  | infinity, _ => false
  end.

Definition Height_le (a b : Height) : Prop := Height_lt b a = false.

(** [math::Size2]. *)
Record Size2 := mkSize2 { width : Z; height : Z }.

(** [cv::Mat] of floats: [rows] x [cols] values, row after row. *)
Record Mat := mkMat { rows : Z; cols : Z; mdata : list Height }.

Definition offset (m : Mat) (py px : Z) : nat := Z.to_nat (py * cols m + px).

(** [m.at<float>(y, x)], read. *)
Definition at_ (m : Mat) (py px : Z) : option Height := mdata m !! offset m py px.

(** [m.at<float>(y, x) = v]. *)
Definition setAt (m : Mat) (py px : Z) (v : Height) : Mat :=
  mkMat (rows m) (cols m) (<[offset m py px := v]> (mdata m)).

(** [HeightMap::Accumulator]: the size of its tiles and the tiles
    allocated so far. *)
Record Accumulator := mkAccumulator {
  hma_tileSize : Size2;
  hma_tiles : gmap TileId Mat
}.

(** A tile of the accumulator's size with every pixel invalid. *)
Definition emptyTile (sz : Size2) : Mat :=
  mkMat (height sz) (width sz)
        (replicate (Z.to_nat (height sz * width sz)) infinity).

(** Modelled from the spec: [HeightMap::Accumulator::tile] (heightmap.hpp is
    not among the sources). Section 4.6: [tile(id)] lazily allocates, and
    invalid pixels are the +oo sentinel; the comment in
    [generateHeightMap] says the initial value is +oo. The tile is returned
    with the accumulator that now holds it. *)
Definition Accumulator_tile (a : Accumulator) (tileId : TileId)
    : Mat * Accumulator :=
  match hma_tiles a !! tileId with
  | Some m => (m, a)
  | None =>
      let m := emptyTile (hma_tileSize a) in
      (m, mkAccumulator (hma_tileSize a) (<[tileId := m]> (hma_tiles a)))
  end.

(** The tile as a later call of [tile(id)] sees it. *)
Definition tileOf (a : Accumulator) (tileId : TileId) : Mat :=
  (Accumulator_tile a tileId).1.

Definition inRaster (sz : Size2) (s : Z * Z * Z) : bool :=
  let '(px, py, _) := s in
  (0 <=? px) && (px <? width sz) && (0 <=? py) && (py <? height sz).

(** *** The tile index of the input and its completion *)

(** Parent and children of a tile: the children of (l, x, y) are
    (l+1, 2x+dx, 2y+dy), in the order ll, lr, ul, ur. *)
Definition parent (t : TileId) : TileId :=
  mkTileId (lod t - 1) (Z.shiftr (x t) 1) (Z.shiftr (y t) 1).

Definition children (t : TileId) : list TileId :=
  [ mkTileId (lod t + 1) (2 * x t) (2 * y t);
    mkTileId (lod t + 1) (2 * x t + 1) (2 * y t);
    mkTileId (lod t + 1) (2 * x t) (2 * y t + 1);
    mkTileId (lod t + 1) (2 * x t + 1) (2 * y t + 1) ].

Fixpoint ancestorsN (n : nat) (t : TileId) : list TileId :=
  match n with
  | O => []
  | S n' => parent t :: ancestorsN n' (parent t)
  end.

(** The tiles above [t], up to LOD 0. *)
Definition ancestors (t : TileId) : list TileId :=
  ancestorsN (Z.to_nat (lod t)) t.

(** [vts0::TileIndex]: one boolean raster mask per LOD (the masks are
    [vts0::RasterMask]s, see [tileRange]); it is kept as the set of the
    tiles that are set. *)
Abbreviation TileIndex := (gset TileId).

(** [TileIndex::exists]. *)
Definition TileIndex_exists (ti : TileIndex) (t : TileId) : bool :=
  bool_decide (t ∈ ti).

(** [lodRange().max]. *)
Definition maxLod (ti : TileIndex) : Z :=
  set_fold (fun t m => Z.max (lod t) m) 0 ti.

(** Modelled from the spec: the operations of the tile index are not among
    the sources. Section 4.2, [makeAbsolute]: for every tile of the index,
    mark every ancestor in the pyramid (scenario 3 of section 8). The index
    keeps one bit per tile, so a marked tile is a tile of the index. *)
Definition makeAbsolute (ti : TileIndex) : TileIndex :=
  ti ∪ set_bind (fun t => list_to_set (ancestors t)) ti.

(** Modelled from the spec: [makeComplete]. Section 8 states what holds
    after it: every ancestor of a tile of the index is marked; section 4.2
    words it as a pass from the top of the pyramid down to the maximal
    LOD. The tiles above the tiles of the index are added. *)
Definition makeComplete (ti : TileIndex) : TileIndex :=
  ti ∪ set_bind (fun t => list_to_set (ancestors t)) ti.

(** Modelled from the spec: section 4.2, [makeFull]: the union of absolute
    and complete. *)
Definition makeFull (ti : TileIndex) : TileIndex :=
  makeAbsolute ti ∪ makeComplete ti.


(** [vts::Encoder::TileResult]: no data in the whole subtree, no data here
    but maybe below, or a tile. *)
Inductive TileResult (Tile : Type) : Type :=
| noData
| noDataYet
| tileData (tile : Tile).
Arguments noData {Tile}.
Arguments noDataYet {Tile}.
Arguments tileData {Tile} tile.

Definition isNoData {Tile} (r : TileResult Tile) : bool :=
  match r with noData => true | _ => false end.

(** [Config]: texture layer and credits. *)
Record Config := mkConfig {
  textureLayer : option Z;
  cfg_credits : gset Z
}.

(** [asVts]: the same tile id in the input tile set. *)
Definition asVts (tileId : TileId) : TileId :=
  mkTileId (lod tileId) (x tileId) (y tileId).

Section HeightMap.

(** [vts0::Mesh], the mesh and atlas of the output tile. *)
Context {Mesh VtsMesh Atlas : Type}.

Abbreviation Extents := NodeInfoImpl.Extents2.

(** The pixels (x, y, z) that scan conversion yields for the faces of a
    mesh mapped into a grid of the given size by [mesh2grid], face after
    face and scan line after scan line ([imgproc::scanConvertTriangle],
    [imgproc::processScanline]). *)
Variable scanConvert : Mesh -> Extents -> Size2 -> list (Z * Z * Z).

(** [rasterizeMesh(mesh, trafo, rasterSize, op)]: [op] is called for every
    pixel of every scan line, scan lines and pixels being clipped to the
    raster. *)
Definition rasterizeMesh {S : Type} (mesh : Mesh) (extents : Extents)
    (rasterSize : Size2) (op : Z -> Z -> Z -> S -> S) (s : S) : S :=
  fold_left (fun acc '(px, py, z) => op px py z acc)
            (List.filter (inRaster rasterSize)
                         (scanConvert mesh extents rasterSize)) s.

(** The lambda of [generateHeightMap]:
    [auto &value(hm.at<float>(y, x)); if (z < value) { value = z; }]. *)
Definition takeMinimum (px py z : Z) (hm : Mat) : Mat :=
  match at_ hm py px with
  | Some value => if Height_lt (finite z) value then setAt hm py px (finite z)
                  else hm
  | None => hm
  end.

(** [Encoder::generateHeightMap(tileId, mesh, extents)] on the
    accumulator [hma_]. *)
Definition generateHeightMap (hma : Accumulator) (tileId : TileId)
    (mesh : Mesh) (extents : Extents) : Accumulator :=
  let '(hm, hma1) := Accumulator_tile hma tileId in
  let hm' := rasterizeMesh mesh extents (hma_tileSize hma1) takeMinimum hm in
  mkAccumulator (hma_tileSize hma1) (<[tileId := hm']> (hma_tiles hma1)).

(** The height of a rasterised pixel, when it is pixel (px, py). *)
Definition pick (px py : Z) (s : Z * Z * Z) : option Z :=
  let '(qx, qy, z) := s in
  if bool_decide (qx = px /\ qy = py) then Some z else None.

(** The heights rasterised onto pixel (px, py) by a sequence of meshes. *)
Definition heightsAt (sz : Size2) (px py : Z) (meshes : list (Mesh * Extents))
    : list Z :=
  flat_map (fun '(mesh, extents) =>
              omap (pick px py)
                   (List.filter (inRaster sz) (scanConvert mesh extents sz)))
           meshes.

(** [generateHeightMap] called for one tile with mesh after mesh. *)
Definition generateHeightMaps (hma : Accumulator) (tileId : TileId)
    (meshes : list (Mesh * Extents)) : Accumulator :=
  fold_left (fun a '(mesh, extents) => generateHeightMap a tileId mesh extents)
            meshes hma.

(** The smaller of [v] and all of [zs]. *)
Definition minimumOf (zs : list Z) (v : Height) : Height :=
  fold_left (fun acc z => if Height_lt (finite z) acc then finite z else acc)
            zs v.

(** The tiles of an accumulator have its tile size. *)
Definition sized (sz : Size2) (m : Mat) : Prop :=
  rows m = height sz /\ cols m = width sz /\
  length (mdata m) = Z.to_nat (height sz * width sz).

Definition Accumulator_wf (a : Accumulator) : Prop :=
  0 <= width (hma_tileSize a) /\ 0 <= height (hma_tileSize a) /\
  forall t m, hma_tiles a !! t = Some m -> sized (hma_tileSize a) m.

Lemma minimumOf_app zs1 zs2 v :
  minimumOf (zs1 ++ zs2) v = minimumOf zs2 (minimumOf zs1 v).
Proof. unfold minimumOf. apply fold_left_app. Qed.

Lemma minimumOf_cons z zs v :
  minimumOf (z :: zs) v =
    minimumOf zs (if Height_lt (finite z) v then finite z else v).
Proof. reflexivity. Qed.

Lemma Height_le_refl v : Height_le v v.
Proof. unfold Height_le. destruct v; cbn; [apply Z.ltb_irrefl|done]. Qed.

Lemma Height_le_trans a b c : Height_le a b -> Height_le b c -> Height_le a c.
Proof.
  unfold Height_le. destruct a, b, c; cbn; rewrite ?Z.ltb_ge; try done; lia.
Qed.

Lemma minimumOf_le_init zs v : Height_le (minimumOf zs v) v.
Proof.
  revert v. induction zs as [|z zs IH]; intros v.
  - apply Height_le_refl.
  - rewrite minimumOf_cons.
    destruct (Height_lt (finite z) v) eqn:Hlt; [|apply IH].
    eapply Height_le_trans; [apply IH|].
    unfold Height_le. destruct v; cbn in *; [|done].
    apply Z.ltb_lt in Hlt. apply Z.ltb_ge. lia.
Qed.

Lemma minimumOf_le_each zs v z :
  z ∈ zs -> Height_le (minimumOf zs v) (finite z).
Proof.
  revert v. induction zs as [|z' zs IH]; intros v Hin.
  - by apply elem_of_nil in Hin.
  - rewrite minimumOf_cons.
    apply elem_of_cons in Hin as [<-|Hin]; [|by apply IH].
    eapply Height_le_trans; [apply minimumOf_le_init|].
    destruct (Height_lt (finite z) v) eqn:Hlt; [apply Height_le_refl|].
    exact Hlt.
Qed.

Lemma minimumOf_attained zs v :
  minimumOf zs v = v \/ exists z, z ∈ zs /\ minimumOf zs v = finite z.
Proof.
  revert v. induction zs as [|z zs IH]; intros v; [by left|].
  rewrite minimumOf_cons. destruct (Height_lt (finite z) v).
  - right. destruct (IH (finite z)) as [->|(z' & Hin & ->)].
    + exists z. split; [left|done].
    + exists z'. split; [by right|done].
  - destruct (IH v) as [->|(z' & Hin & ->)]; [by left|].
    right. exists z'. split; [by right|done].
Qed.

Lemma offset_lt sz m px py :
  sized sz m -> 0 <= px < width sz -> 0 <= py < height sz ->
  (offset m py px < length (mdata m))%nat.
Proof.
  intros (Hr & Hc & Hl) Hx Hy. unfold offset. rewrite Hl, Hc. nia.
Qed.

Lemma offset_inj sz m px py qx qy :
  sized sz m -> 0 <= px < width sz -> 0 <= py < height sz ->
  0 <= qx < width sz -> 0 <= qy < height sz ->
  offset m py px = offset m qy qx -> px = qx /\ py = qy.
Proof.
  intros (Hr & Hc & Hl) Hx Hy Hqx Hqy. unfold offset. rewrite Hc. intros Heq.
  apply Z2Nat.inj in Heq; [|nia..].
  destruct (Z.lt_trichotomy py qy) as [Hlt|[->|Hlt]].
  - assert ((py + 1) * width sz <= qy * width sz)
      by (apply Z.mul_le_mono_nonneg_r; lia). lia.
  - lia.
  - assert ((qy + 1) * width sz <= py * width sz)
      by (apply Z.mul_le_mono_nonneg_r; lia). lia.
Qed.

Lemma takeMinimum_sized sz m qx qy z :
  sized sz m -> sized sz (takeMinimum qx qy z m).
Proof.
  intros Hs. unfold takeMinimum. destruct (at_ m qy qx) as [v|]; [|done].
  destruct (Height_lt (finite z) v); [|done].
  destruct Hs as (Hr & Hc & Hl). unfold sized, setAt; cbn.
  by rewrite length_insert.
Qed.

Lemma takeMinimum_at sz m qx qy z px py :
  sized sz m -> inRaster sz (qx, qy, z) = true ->
  0 <= px < width sz -> 0 <= py < height sz ->
  at_ (takeMinimum qx qy z m) py px =
    minimumOf (default [] (z' ← pick px py (qx, qy, z); Some [z']))
      <$> at_ m py px.
Proof.
  intros Hs Hin Hx Hy. unfold inRaster in Hin.
  rewrite !andb_true_iff, !Z.leb_le, !Z.ltb_lt in Hin.
  assert (Hq : (offset m qy qx < length (mdata m))%nat)
    by (eapply offset_lt; [done|lia..]).
  unfold takeMinimum, pick.
  destruct (at_ m qy qx) as [v|] eqn:Hv;
    [|apply lookup_ge_None in Hv; lia].
  case_bool_decide as Hsame.
  - destruct Hsame as [-> ->]. rewrite Hv.
    change (minimumOf _ <$> Some v)
      with (Some (if Height_lt (finite z) v then finite z else v)).
    destruct (Height_lt (finite z) v); [|done].
    unfold at_, setAt, offset; cbn. by apply list_lookup_insert_eq.
  - change (minimumOf _ <$> at_ m py px) with (id <$> at_ m py px).
    rewrite option_fmap_id.
    destruct (at_ m py px) as [w|] eqn:Hw.
    + destruct (Height_lt (finite z) v); [|done].
      unfold at_, setAt; cbn. change (offset (mkMat _ _ _) py px)
        with (offset m py px). rewrite list_lookup_insert_ne; [done|].
      intros Heq. apply Hsame.
      apply (offset_inj sz m qx qy px py) in Heq; [done..|lia|lia|done|done].
    + destruct (Height_lt (finite z) v); [|done].
      unfold at_, setAt; cbn. change (offset (mkMat _ _ _) py px)
        with (offset m py px). apply lookup_ge_None.
      rewrite length_insert. by apply lookup_ge_None.
Qed.

Lemma fold_takeMinimum_sized sz (l : list (Z * Z * Z)) m :
  sized sz m ->
  sized sz (fold_left (fun acc '(qx, qy, z) => takeMinimum qx qy z acc) l m).
Proof.
  revert m. induction l as [|[[qx qy] z] l IH]; intros m Hs; [done|].
  cbn [fold_left]. by apply IH, takeMinimum_sized.
Qed.

Lemma fold_takeMinimum sz (l : list (Z * Z * Z)) m px py :
  sized sz m -> Forall (fun s => inRaster sz s = true) l ->
  0 <= px < width sz -> 0 <= py < height sz ->
  at_ (fold_left (fun acc '(qx, qy, z) => takeMinimum qx qy z acc) l m) py px
  = minimumOf (omap (pick px py) l) <$> at_ m py px.
Proof.
  intros Hs Hall Hx Hy. revert m Hs.
  induction Hall as [|[[qx qy] z] l Hin Hall IH]; intros m Hs.
  - cbn. by destruct (at_ m py px).
  - cbn [fold_left]. rewrite IH by (by apply takeMinimum_sized).
    rewrite (takeMinimum_at sz) by done.
    destruct (at_ m py px) as [v|]; [|done]. cbn [fmap option_fmap option_map].
    cbn [omap list_omap]. destruct (pick px py (qx, qy, z)); reflexivity.
Qed.

Lemma Forall_filter_inRaster sz (l : list (Z * Z * Z)) :
  Forall (fun s => inRaster sz s = true) (List.filter (inRaster sz) l).
Proof.
  apply List.Forall_forall. intros s Hin. by apply List.filter_In in Hin as [_ ?].
Qed.

Lemma emptyTile_sized sz :
  0 <= width sz -> 0 <= height sz -> sized sz (emptyTile sz).
Proof. intros. unfold sized, emptyTile; cbn. by rewrite length_replicate. Qed.

Lemma emptyTile_at sz px py :
  0 <= px < width sz -> 0 <= py < height sz ->
  at_ (emptyTile sz) py px = Some infinity.
Proof.
  intros Hx Hy. unfold at_, emptyTile, offset; cbn.
  apply lookup_replicate_2. nia.
Qed.

Lemma tileOf_sized a tileId :
  Accumulator_wf a -> sized (hma_tileSize a) (tileOf a tileId).
Proof.
  intros (Hw & Hh & Hall). unfold tileOf, Accumulator_tile.
  destruct (hma_tiles a !! tileId) as [m|] eqn:Hm; cbn.
  - by eapply Hall.
  - by apply emptyTile_sized.
Qed.

(** One call of [generateHeightMap]: the tile afterwards is the tile
    before with the mesh rasterised into it. *)
Lemma generateHeightMap_tile a tileId mesh extents :
  hma_tileSize (generateHeightMap a tileId mesh extents) = hma_tileSize a /\
  tileOf (generateHeightMap a tileId mesh extents) tileId =
    rasterizeMesh mesh extents (hma_tileSize a) takeMinimum (tileOf a tileId).
Proof.
  unfold generateHeightMap, tileOf, Accumulator_tile.
  destruct (hma_tiles a !! tileId) as [m|] eqn:Hm; cbn;
    by rewrite lookup_insert_eq.
Qed.

Lemma generateHeightMap_wf a tileId mesh extents :
  Accumulator_wf a -> Accumulator_wf (generateHeightMap a tileId mesh extents).
Proof.
  intros Hwf. pose proof (tileOf_sized a tileId Hwf) as Hs.
  destruct Hwf as (Hw & Hh & Hall).
  unfold tileOf in Hs. unfold generateHeightMap.
  destruct (Accumulator_tile a tileId) as [hm a1] eqn:Ht. cbn in Hs.
  assert (Ha1 : hma_tileSize a1 = hma_tileSize a /\
                forall t m, hma_tiles a1 !! t = Some m ->
                            sized (hma_tileSize a) m).
  { unfold Accumulator_tile in Ht.
    destruct (hma_tiles a !! tileId) as [m0|] eqn:Hm; injection Ht as <- <-.
    - split; [done|]. exact Hall.
    - split; [done|]. cbn. intros t m.
      destruct (decide (t = tileId)) as [->|Hne].
      + rewrite lookup_insert_eq. by intros [= <-].
      + rewrite lookup_insert_ne by done. apply Hall. }
  destruct Ha1 as [Hsz Hall1]. unfold Accumulator_wf; cbn. rewrite Hsz.
  split; [done|]. split; [done|]. intros t m.
  destruct (decide (t = tileId)) as [->|Hne].
  - rewrite lookup_insert_eq. intros [= <-]. unfold rasterizeMesh.
    by apply fold_takeMinimum_sized.
  - rewrite lookup_insert_ne by done. apply Hall1.
Qed.

Lemma generateHeightMaps_at hma tileId meshes px py :
  Accumulator_wf hma ->
  0 <= px < width (hma_tileSize hma) -> 0 <= py < height (hma_tileSize hma) ->
  at_ (tileOf (generateHeightMaps hma tileId meshes) tileId) py px =
    minimumOf (heightsAt (hma_tileSize hma) px py meshes)
      <$> at_ (tileOf hma tileId) py px.
Proof.
  revert hma. induction meshes as [|[mesh extents] meshes IH];
    intros hma Hwf Hx Hy.
  - cbn. by destruct (at_ _ py px).
  - unfold generateHeightMaps. cbn [fold_left].
    fold (generateHeightMaps (generateHeightMap hma tileId mesh extents)
            tileId meshes).
    destruct (generateHeightMap_tile hma tileId mesh extents) as [Hsz Ht].
    rewrite IH; [|by apply generateHeightMap_wf|by rewrite Hsz..].
    rewrite Hsz, Ht. unfold rasterizeMesh.
    rewrite (fold_takeMinimum (hma_tileSize hma));
      [|by apply tileOf_sized|apply Forall_filter_inRaster|done|done].
    cbn [heightsAt flat_map]. destruct (at_ (tileOf hma tileId) py px); [|done].
    cbn. by rewrite minimumOf_app.
Qed.

(** C8. A tile of the height-map accumulator starts with every pixel at
    +oo; after any sequence of meshes is rasterised into the tile, a pixel
    holds the minimum of the value it had before and of all heights
    rasterised onto it, and a pixel on which nothing was rasterised keeps
    its value (+oo in a fresh tile). *)
Theorem heightmap_keeps_minimum (hma : Accumulator) (tileId : TileId)
    (meshes : list (Mesh * Extents)) (px py : Z) :
  Accumulator_wf hma ->
  0 <= px < width (hma_tileSize hma) ->
  0 <= py < height (hma_tileSize hma) ->
  exists before after : Height,
    at_ (tileOf hma tileId) py px = Some before /\
    at_ (tileOf (generateHeightMaps hma tileId meshes) tileId) py px
      = Some after /\
    (hma_tiles hma !! tileId = None -> before = infinity) /\
    after = minimumOf (heightsAt (hma_tileSize hma) px py meshes) before /\
    Height_le after before /\
    (forall z, z ∈ heightsAt (hma_tileSize hma) px py meshes ->
               Height_le after (finite z)) /\
    (after = before \/
     exists z, z ∈ heightsAt (hma_tileSize hma) px py meshes /\
               after = finite z) /\
    (heightsAt (hma_tileSize hma) px py meshes = [] -> after = before).
Proof.
  intros Hwf Hx Hy.
  destruct (at_ (tileOf hma tileId) py px) as [before|] eqn:Hb.
  2:{ exfalso. apply lookup_ge_None in Hb.
      pose proof (offset_lt _ _ px py (tileOf_sized hma tileId Hwf) Hx Hy).
      lia. }
  exists before, (minimumOf (heightsAt (hma_tileSize hma) px py meshes) before).
  split; [reflexivity|].
  split; [by rewrite generateHeightMaps_at, Hb|].
  split.
  { intros Hnone. unfold tileOf, Accumulator_tile in Hb. rewrite Hnone in Hb.
    cbn in Hb. rewrite emptyTile_at in Hb by done. congruence. }
  split; [reflexivity|]. split; [apply minimumOf_le_init|].
  split; [intros z; apply minimumOf_le_each|].
  split; [apply minimumOf_attained|]. by intros ->.
Qed.

(** *** The encoder *)

(** [vts::Tile]: mesh, atlas and credits. *)
Record Tile := mkTile {
  t_mesh : VtsMesh;
  t_atlas : Atlas;
  t_credits : gset Z
}.

(** [createMesh(tileId, m, divisionExtents, externalTextureCoordinates,
    textureLayer)]. *)
Variable createMesh : TileId -> Mesh -> Extents -> bool -> option Z -> VtsMesh.

(** [Encoder]: the configuration, the input ([aa_]: mesh and atlas stream
    of an input tile), its tile index [ti_], the completed copy [cti_], the
    accumulator [hma_], and [ntSourceLod_] of [EncoderBase]. *)
Record Encoder := mkEncoder {
  config_ : Config;
  aa_ : TileId -> Mesh * Atlas;
  ti_ : TileIndex;
  cti_ : TileIndex;
  hma_ : Accumulator;
  ntSourceLod_ : Z
}.

(** [Encoder::Encoder]: [cti_(ti_)], then [cti_.makeFull().makeComplete()];
    the accumulator starts without tiles. *)
Definition Encoder_new (config : Config) (aa : TileId -> Mesh * Atlas)
    (ti : TileIndex) (ntSourceLod : Z) (tileSize : Size2) : Encoder :=
  mkEncoder config aa ti (makeComplete (makeFull ti))
            (mkAccumulator tileSize ∅) ntSourceLod.

Definition setHma (e : Encoder) (hma : Accumulator) : Encoder :=
  mkEncoder (config_ e) (aa_ e) (ti_ e) (cti_ e) hma (ntSourceLod_ e).

(** [Encoder::generate(tileId, nodeInfo, parentResult)]: the result and the
    encoder afterwards. *)
Definition generate (e : Encoder) (tileId : TileId)
    (nodeInfo : NodeInfoImpl.NodeInfo) (parentResult : TileResult Tile)
    : TileResult Tile * Encoder :=
  let vts0Id := asVts tileId in
  if negb (TileIndex_exists (cti_ e) vts0Id) then (noData, e)
  else if negb (TileIndex_exists (ti_ e) vts0Id) then (noDataYet, e)
  else
    let '(mesh, atlasStream) := aa_ e vts0Id in
    let node := NodeInfoImpl.node nodeInfo in
    let tile := mkTile (createMesh tileId mesh (NodeInfoImpl.extents node)
                          (NodeInfoImpl.externalTexture node)
                          (textureLayer (config_ e)))
                       atlasStream (cfg_credits (config_ e)) in
    let e' := if lod tileId =? ntSourceLod_ e
              then setHma e (generateHeightMap (hma_ e) tileId mesh
                               (NodeInfoImpl.extents node))
              else e in
    (tileData tile, e').

(** [NodeInfo(referenceFrame, tileId)]. *)
Variable nodeInfoOf : TileId -> NodeInfoImpl.NodeInfo.

(** One child visited after its siblings to the left: the encoder is
    handed on and the trace grows. *)
Definition stepChild (f : Encoder -> TileId ->
                          list (TileId * TileResult Tile) * Encoder)
    (st : list (TileId * TileResult Tile) * Encoder) (c : TileId)
    : list (TileId * TileResult Tile) * Encoder :=
  let '(acc, ec) := st in let '(tr, ec') := f ec c in (acc ++ tr, ec').

(** Modelled from the spec: the traversal of [vts::Encoder] is not among
    the sources. Section 4.6: depth-first pre-order, [generate] called once
    per reached tile, descending into the children only if the parent did
    not return [noData]; the constraints set by the constructor stop the
    descent below the maximal LOD of the input ([n] levels are left). The
    trace lists the tiles [generate] was called for, with its results. *)
Fixpoint process (n : nat) (e : Encoder) (tileId : TileId)
    (parentResult : TileResult Tile)
    : list (TileId * TileResult Tile) * Encoder :=
  match n with
  | O => ([], e)
  | S n' =>
      let '(r, e1) := generate e tileId (nodeInfoOf tileId) parentResult in
      if isNoData r then ([(tileId, r)], e1)
      else
        let '(below, e2) :=
          fold_left (stepChild (fun ec c => process n' ec c r))
                    (children tileId) ([], e1) in
        ((tileId, r) :: below, e2)
  end.

(** Modelled from the spec: [Encoder::run], from the root of the reference
    frame over the LOD range [0, input->lodRange().max]. *)
Definition run (e : Encoder) : list (TileId * TileResult Tile) * Encoder :=
  process (Z.to_nat (maxLod (ti_ e) + 1)) e (mkTileId 0 0 0) noDataYet.

(** **** Tiles above and below *)


















Lemma asVts_id t : asVts t = t.
Proof. by destruct t. Qed.

(** **** Results of [generate] *)



(** Two encoders that differ in their accumulators only. *)
Definition sameInput (e e' : Encoder) : Prop :=
  config_ e = config_ e' /\ aa_ e = aa_ e' /\ ti_ e = ti_ e' /\
  cti_ e = cti_ e' /\ ntSourceLod_ e = ntSourceLod_ e'.

Lemma generate_sameInput e t ni pr : sameInput e (generate e t ni pr).2.
Proof.
  unfold generate.
  destruct (negb (TileIndex_exists (cti_ e) (asVts t))); [done|].
  destruct (negb (TileIndex_exists (ti_ e) (asVts t))); [done|].
  destruct (aa_ e (asVts t)). cbn. by destruct (lod t =? ntSourceLod_ e).
Qed.



(** **** The traversal *)

(** What holds of a trace below [root]: every entry carries the result of
    [generate] for its tile, and every tile but the root has its parent in
    the trace with a result other than [noData]. *)
Definition traced (e : Encoder) (pr : TileResult Tile)
    (trace : list (TileId * TileResult Tile)) (c : TileId)
    (rc : TileResult Tile) : Prop :=
  rc = (generate e c (nodeInfoOf c) pr).1.






(** *** The accumulator under many calls *)

Definition lower (acc : Height) (z : Z) : Height :=
  if Height_lt (finite z) acc then finite z else acc.

Lemma lower_comm v a b : lower (lower v a) b = lower (lower v b) a.
Proof.
  unfold lower. destruct v as [q|]; cbn.
  - destruct (Z.ltb_spec a q), (Z.ltb_spec b q); cbn;
      repeat (match goal with
              | |- context [?c <? ?d] => destruct (Z.ltb_spec c d)
              end); try done; f_equal; lia.
  - destruct (Z.ltb_spec b a), (Z.ltb_spec a b); try done; f_equal; lia.
Qed.

Lemma minimumOf_perm zs zs' v :
  zs ≡ₚ zs' -> minimumOf zs v = minimumOf zs' v.
Proof.
  intros Hp. revert v.
  induction Hp as [|z l l' _ IH|a b l|l l' l'' _ IH1 _ IH2]; intros v.
  - done.
  - rewrite !minimumOf_cons. apply IH.
  - rewrite !minimumOf_cons. f_equal. apply (lower_comm v b a).
  - by rewrite IH1.
Qed.

Lemma heightsAt_perm sz px py (meshes meshes' : list (Mesh * Extents)) :
  meshes ≡ₚ meshes' -> heightsAt sz px py meshes ≡ₚ heightsAt sz px py meshes'.
Proof. intros Hp. unfold heightsAt. by apply Permutation_flat_map. Qed.

(** The height left at a pixel does not depend on the order in which the
    meshes were rasterised into the tile. *)
Theorem heightmap_order_independent (hma : Accumulator) (tileId : TileId)
    (meshes meshes' : list (Mesh * Extents)) (px py : Z) :
  meshes ≡ₚ meshes' ->
  Accumulator_wf hma ->
  0 <= px < width (hma_tileSize hma) ->
  0 <= py < height (hma_tileSize hma) ->
  at_ (tileOf (generateHeightMaps hma tileId meshes) tileId) py px =
  at_ (tileOf (generateHeightMaps hma tileId meshes') tileId) py px.
Proof.
  intros Hp Hwf Hx Hy. rewrite !generateHeightMaps_at by done.
  destruct (at_ (tileOf hma tileId) py px) as [v|]; [|done]. cbn. f_equal.
  by apply minimumOf_perm, heightsAt_perm.
Qed.

Lemma generateHeightMap_eq a tileId mesh extents :
  generateHeightMap a tileId mesh extents =
    mkAccumulator (hma_tileSize a)
      (<[tileId := rasterizeMesh mesh extents (hma_tileSize a) takeMinimum
                     (tileOf a tileId)]> (hma_tiles a)).
Proof.
  unfold generateHeightMap, tileOf, Accumulator_tile.
  destruct (hma_tiles a !! tileId) as [m|]; cbn; [done|].
  by rewrite insert_insert_eq.
Qed.

Lemma tileOf_generateHeightMap_ne a t1 t2 mesh extents :
  t1 <> t2 -> tileOf (generateHeightMap a t1 mesh extents) t2 = tileOf a t2.
Proof.
  intros Hne. rewrite generateHeightMap_eq. unfold tileOf, Accumulator_tile.
  cbn. rewrite lookup_insert_ne by done. by destruct (hma_tiles a !! t2).
Qed.

(** Calls of [generateHeightMap] for different tiles commute: whichever
    tile is rasterised first, the accumulator ends up the same. *)
Theorem generateHeightMap_commute (a : Accumulator) (t1 t2 : TileId)
    (m1 m2 : Mesh) (e1 e2 : Extents) :
  t1 <> t2 ->
  generateHeightMap (generateHeightMap a t1 m1 e1) t2 m2 e2 =
  generateHeightMap (generateHeightMap a t2 m2 e2) t1 m1 e1.
Proof.
  intros Hne.
  rewrite (generateHeightMap_eq (generateHeightMap a t1 m1 e1)),
          (generateHeightMap_eq (generateHeightMap a t2 m2 e2)).
  rewrite tileOf_generateHeightMap_ne by done.
  rewrite tileOf_generateHeightMap_ne by done.
  rewrite !generateHeightMap_eq. cbn. f_equal. by apply insert_insert_ne.
Qed.

(** [generate] called for tile after tile. *)
Definition generateAll (e : Encoder)
    (calls : list (TileId * NodeInfoImpl.NodeInfo * TileResult Tile))
    : Encoder :=
  fold_left (fun ec '(t, ni, pr) => (generate ec t ni pr).2) calls e.

Lemma generate_tiles e t ni pr (k : TileId) :
  is_Some (hma_tiles (hma_ (generate e t ni pr).2) !! k) ->
  is_Some (hma_tiles (hma_ e) !! k) \/
  (k = t /\ t ∈ ti_ e /\ lod t = ntSourceLod_ e).
Proof.
  unfold generate, TileIndex_exists. rewrite asVts_id.
  case_bool_decide as Hc; cbn; [|by left].
  case_bool_decide as Ht; cbn; [|by left].
  destruct (aa_ e t) as [mesh atlasStream]. cbn.
  destruct (Z.eqb_spec (lod t) (ntSourceLod_ e)) as [Hl|Hl]; [|by left].
  cbn. rewrite generateHeightMap_eq. cbn.
  destruct (decide (k = t)) as [->|Hne]; [by right|].
  rewrite lookup_insert_ne by done. by left.
Qed.

(** Whatever tiles [generate] is called for and in whatever order, the
    accumulator gets tiles only for input tiles with data at the navtile
    source LOD: a tile it holds afterwards was there before or is such a
    tile that [generate] was called for. *)
Theorem generate_allocates_at_source_lod (e : Encoder)
    (calls : list (TileId * NodeInfoImpl.NodeInfo * TileResult Tile))
    (k : TileId) :
  is_Some (hma_tiles (hma_ (generateAll e calls)) !! k) ->
  is_Some (hma_tiles (hma_ e) !! k) \/
  (k ∈ calls.*1.*1 /\ k ∈ ti_ e /\ lod k = ntSourceLod_ e).
Proof.
  revert e. induction calls as [|[[t ni] pr] calls IH]; intros e Hk;
    [by left|].
  cbn [generateAll fold_left] in Hk.
  apply IH in Hk as [Hk|(Hin & Hti & Hl)].
  - apply generate_tiles in Hk as [Hk|(-> & Hti & Hl)]; [by left|].
    right. split; [left|done].
  - destruct (generate_sameInput e t ni pr) as (_ & _ & Hti' & _ & Hn').
    right. rewrite Hti', Hn'. split; [by right|done].
Qed.

Lemma generate_wf e t ni pr :
  Accumulator_wf (hma_ e) -> Accumulator_wf (hma_ (generate e t ni pr).2) /\
  hma_tileSize (hma_ (generate e t ni pr).2) = hma_tileSize (hma_ e).
Proof.
  intros Hwf. unfold generate.
  destruct (negb (TileIndex_exists (cti_ e) (asVts t))); [done|].
  destruct (negb (TileIndex_exists (ti_ e) (asVts t))); [done|].
  destruct (aa_ e (asVts t)) as [mesh atlasStream]. cbn.
  destruct (lod t =? ntSourceLod_ e); [|done]. cbn.
  split; [by apply generateHeightMap_wf|].
  by destruct (generateHeightMap_tile (hma_ e) t mesh
                 (NodeInfoImpl.extents (NodeInfoImpl.node ni))).
Qed.

(** Whatever tiles [generate] is called for, the accumulator keeps its tile
    size and every tile in it keeps that size, so that every pixel inside
    the raster can be read and written. *)
Theorem generate_keeps_tile_size (e : Encoder)
    (calls : list (TileId * NodeInfoImpl.NodeInfo * TileResult Tile))
    (k : TileId) (px py : Z) :
  Accumulator_wf (hma_ e) ->
  0 <= px < width (hma_tileSize (hma_ e)) ->
  0 <= py < height (hma_tileSize (hma_ e)) ->
  hma_tileSize (hma_ (generateAll e calls)) = hma_tileSize (hma_ e) /\
  sized (hma_tileSize (hma_ e)) (tileOf (hma_ (generateAll e calls)) k) /\
  is_Some (at_ (tileOf (hma_ (generateAll e calls)) k) py px).
Proof.
  intros Hwf Hx Hy.
  assert (H : Accumulator_wf (hma_ (generateAll e calls)) /\
              hma_tileSize (hma_ (generateAll e calls)) = hma_tileSize (hma_ e)).
  { clear Hx Hy. revert e Hwf.
    induction calls as [|[[t ni] pr] calls IH]; intros e Hwf; [done|].
    change (generateAll e ((t, ni, pr) :: calls))
      with (generateAll (generate e t ni pr).2 calls).
    destruct (generate_wf e t ni pr Hwf) as [Hwf' Hsz].
    destruct (IH _ Hwf') as [Hwf'' Hsz'']. split; [done|congruence]. }
  destruct H as [Hwf' Hsz]. split; [exact Hsz|].
  pose proof (tileOf_sized _ k Hwf') as Hs. rewrite Hsz in Hs.
  split; [exact Hs|]. apply lookup_lt_is_Some.
  by apply (offset_lt (hma_tileSize (hma_ e))).
Qed.

End HeightMap.

(** *** Converting a mesh *)

(** A raster of values, row after row: the [cv::Mat] of bytes and the
    coverage mask of a mesh. *)
Record Grid (A : Type) := mkGrid { g_rows : Z; g_cols : Z; g_data : list A }.
Arguments mkGrid {A}.
Arguments g_rows {A}.
Arguments g_cols {A}.
Arguments g_data {A}.

Definition goffset {A} (g : Grid A) (py px : Z) : nat :=
  Z.to_nat (py * g_cols g + px).

(** [g.at(y, x)], read and written. *)
Definition gat {A} (g : Grid A) (py px : Z) : option A :=
  g_data g !! goffset g py px.

Definition gput {A} (g : Grid A) (py px : Z) (v : A) : Grid A :=
  mkGrid (g_rows g) (g_cols g) (<[goffset g py px := v]> (g_data g)).

Definition constGrid {A} (sz : Size2) (v : A) : Grid A :=
  mkGrid (height sz) (width sz) (replicate (Z.to_nat (height sz * width sz)) v).

Definition gsized {A} (sz : Size2) (g : Grid A) : Prop :=
  g_rows g = height sz /\ g_cols g = width sz /\
  length (g_data g) = Z.to_nat (height sz * width sz).

Definition inside (sz : Size2) (px py : Z) : Prop :=
  0 <= px < width sz /\ 0 <= py < height sz.

(** A face of a [vts0::Mesh]: three vertex and three texture indices. *)
Record Facet := mkFacet { f_v : Z * Z * Z; f_t : Z * Z * Z }.

(** [vts0::Mesh] ([geometry::Mesh]). *)
Record Mesh0 (P3 : Type) := mkMesh0 {
  vertices : list P3;
  texcoords : list P3;
  facets : list Facet
}.
Arguments mkMesh0 {P3}.
Arguments vertices {P3}.
Arguments texcoords {P3}.
Arguments facets {P3}.

(** [vts::SubMesh]. *)
Record SubMesh (P3 P2 : Type) := mkSubMesh {
  sm_vertices : list P3;
  sm_etc : list P2;
  sm_tc : list P2;
  sm_faces : list (Z * Z * Z);
  sm_facesTc : list (Z * Z * Z);
  sm_textureLayer : option Z
}.
Arguments mkSubMesh {P3 P2}.
Arguments sm_vertices {P3 P2}.
Arguments sm_etc {P3 P2}.
Arguments sm_tc {P3 P2}.
Arguments sm_faces {P3 P2}.
Arguments sm_facesTc {P3 P2}.
Arguments sm_textureLayer {P3 P2}.

(** [vts::Mesh]: submeshes and coverage mask. *)
Record VMesh (P3 P2 : Type) := mkVMesh {
  submeshes : list (SubMesh P3 P2);
  coverageMask : Grid bool
}.
Arguments mkVMesh {P3 P2}.
Arguments submeshes {P3 P2}.
Arguments coverageMask {P3 P2}.

(** Indices of a face that point into a list of [n] elements. *)
Definition validFace (n : nat) (f : Z * Z * Z) : Prop :=
  let '(a, b, c) := f in
  0 <= a < Z.of_nat n /\ 0 <= b < Z.of_nat n /\ 0 <= c < Z.of_nat n.

Section MeshConversion.

(** Points with three and two coordinates. *)
Context {P3 P2 : Type}.

(** [transform(geo::local2geo(divisionExtents), v)], the
    [TextureNormalizer] of the extents, and [Point2(p(0), p(1))]. *)
Variable local2geo : NodeInfoImpl.Extents2 -> P3 -> P3.
Variable textureNormalizer : NodeInfoImpl.Extents2 -> P3 -> P2.
Variable xy : P3 -> P2.

(** [vts::Mesh::coverageSize()]. *)
Variable coverageSize : Size2.

(** The pixels that scan conversion yields for the faces of a mesh mapped
    into the mask by [mesh2mask]. *)
Variable maskPixels : Mesh0 P3 -> NodeInfoImpl.Extents2 -> Size2 ->
                      list (Z * Z * Z).

(** The inner loop of the conversion into the coverage mask. *)
Definition clearRow (mask : Grid Z) (j : Z) (cm : Grid bool) (is_ : list Z)
    : Grid bool :=
  fold_left (fun cm i =>
               match gat mask j i with
               | Some 0 => gput cm j i false
               | _ => cm
               end) is_ cm.

(** [createMeshMask(tileId, extents, mesh, cm)]: the faces are drawn into a
    byte mask that starts black; the coverage mask starts full and loses
    every pixel that stayed black. *)
Definition createMeshMask (tileId : TileId) (extents : NodeInfoImpl.Extents2)
    (mesh : Mesh0 P3) : Grid bool :=
  let cms := coverageSize in
  let mask := rasterizeMesh maskPixels mesh extents cms
                (fun px py _ m => gput m py px 255) (constGrid cms 0) in
  fold_left (fun cm j => clearRow mask j cm (seqZ 0 (width cms)))
            (seqZ 0 (height cms)) (constGrid cms true).

(** [createMesh(tileId, m, divisionExtents, externalTextureCoordinates,
    textureLayer)]. *)
Definition createMesh (tileId : TileId) (m : Mesh0 P3)
    (divisionExtents : NodeInfoImpl.Extents2)
    (externalTextureCoordinates : bool) (textureLayer : option Z)
    : VMesh P3 P2 :=
  let sm :=
    mkSubMesh
      (map (local2geo divisionExtents) (vertices m))
      (if externalTextureCoordinates
       then map (textureNormalizer divisionExtents) (vertices m) else [])
      (map xy (texcoords m))
      (map f_v (facets m))
      (map f_t (facets m))
      (if externalTextureCoordinates then textureLayer else None) in
  mkVMesh [sm] (createMeshMask tileId divisionExtents m).

(** **** Rasters *)

Lemma goffset_lt {A} sz (g : Grid A) px py :
  gsized sz g -> inside sz px py -> (goffset g py px < length (g_data g))%nat.
Proof.
  intros (Hr & Hc & Hl) [Hx Hy]. unfold goffset. rewrite Hl, Hc. nia.
Qed.

Lemma goffset_inj {A} sz (g : Grid A) px py qx qy :
  gsized sz g -> inside sz px py -> inside sz qx qy ->
  goffset g py px = goffset g qy qx -> px = qx /\ py = qy.
Proof.
  intros (Hr & Hc & Hl) [Hx Hy] [Hqx Hqy]. unfold goffset. rewrite Hc.
  intros Heq. apply Z2Nat.inj in Heq; [|nia..].
  destruct (Z.lt_trichotomy py qy) as [Hlt|[->|Hlt]].
  - assert ((py + 1) * width sz <= qy * width sz)
      by (apply Z.mul_le_mono_nonneg_r; lia). lia.
  - lia.
  - assert ((qy + 1) * width sz <= py * width sz)
      by (apply Z.mul_le_mono_nonneg_r; lia). lia.
Qed.

Lemma gput_sized {A} sz (g : Grid A) py px v :
  gsized sz g -> gsized sz (gput g py px v).
Proof.
  intros (Hr & Hc & Hl). unfold gsized, gput; cbn. by rewrite length_insert.
Qed.

Lemma gat_gput {A} sz (g : Grid A) px py qx qy v :
  gsized sz g -> inside sz px py -> inside sz qx qy ->
  gat (gput g qy qx v) py px =
    if bool_decide (qx = px /\ qy = py) then Some v else gat g py px.
Proof.
  intros Hs Hp Hq. unfold gat, gput; cbn.
  change (goffset (mkGrid _ _ _) py px) with (goffset g py px).
  case_bool_decide as Hsame.
  - destruct Hsame as [-> ->]. apply list_lookup_insert_eq.
    by apply (goffset_lt sz).
  - apply list_lookup_insert_ne. intros Heq. apply Hsame.
    by apply (goffset_inj sz g qx qy px py).
Qed.

Lemma constGrid_sized {A} sz (v : A) :
  0 <= width sz -> 0 <= height sz -> gsized sz (constGrid sz v).
Proof. intros. unfold gsized, constGrid; cbn. by rewrite length_replicate. Qed.

Lemma gat_constGrid {A} sz (v : A) px py :
  inside sz px py -> gat (constGrid sz v) py px = Some v.
Proof.
  intros [Hx Hy]. unfold gat, constGrid, goffset; cbn.
  apply lookup_replicate_2. nia.
Qed.

Lemma inRaster_inside sz qx qy z :
  inRaster sz (qx, qy, z) = true <-> inside sz qx qy.
Proof.
  unfold inRaster, inside.
  rewrite !andb_true_iff, !Z.leb_le, !Z.ltb_lt. lia.
Qed.

(** Whether pixel (px, py) is among the drawn pixels. *)
Definition hits (px py : Z) (l : list (Z * Z * Z)) : bool :=
  existsb (fun '(qx, qy, _) => (qx =? px) && (qy =? py)) l.

Lemma hits_spec px py l :
  hits px py l = true <-> exists z, (px, py, z) ∈ l.
Proof.
  unfold hits. rewrite List.existsb_exists. split.
  - intros ([[qx qy] z] & Hin & Heq).
    apply andb_true_iff in Heq as [->%Z.eqb_eq ->%Z.eqb_eq].
    exists z. by apply list_elem_of_In.
  - intros [z Hz]. exists (px, py, z). split; [by apply list_elem_of_In|].
    by rewrite !Z.eqb_refl.
Qed.

(** The byte mask after drawing: white where a pixel was drawn. *)
Lemma drawn_mask sz (l : list (Z * Z * Z)) (g : Grid Z) px py :
  gsized sz g -> Forall (fun s => inRaster sz s = true) l -> inside sz px py ->
  gsized sz (fold_left (fun acc '(qx, qy, z) => gput acc qy qx 255) l g) /\
  gat (fold_left (fun acc '(qx, qy, z) => gput acc qy qx 255) l g) py px =
    if hits px py l then Some 255 else gat g py px.
Proof.
  intros Hs Hall Hp. revert g Hs.
  induction Hall as [|[[qx qy] z] l Hin Hall IH]; intros g Hs; [done|].
  cbn [fold_left]. apply inRaster_inside in Hin.
  destruct (IH (gput g qy qx 255)) as [Hs' Hat]; [by apply gput_sized|].
  split; [exact Hs'|]. rewrite Hat, (gat_gput sz) by done.
  unfold hits at 2. cbn [existsb]. fold (hits px py l).
  destruct (hits px py l); [by rewrite orb_true_r|]. rewrite orb_false_r.
  case_bool_decide as Hsame.
  - destruct Hsame as [-> ->]. by rewrite !Z.eqb_refl.
  - destruct (Z.eqb_spec qx px), (Z.eqb_spec qy py); try done.
    exfalso. by apply Hsame.
Qed.

Lemma clearStep_at sz (mask : Grid Z) j i (cm : Grid bool) px py :
  gsized sz cm -> inside sz i j -> inside sz px py ->
  gsized sz (match gat mask j i with
             | Some 0 => gput cm j i false
             | _ => cm
             end) /\
  gat (match gat mask j i with
       | Some 0 => gput cm j i false
       | _ => cm
       end) py px =
    if bool_decide (py = j /\ px = i /\ gat mask py px = Some 0)
    then Some false else gat cm py px.
Proof.
  intros Hs Hq Hp. split.
  - destruct (gat mask j i) as [[| |]|]; try done. by apply gput_sized.
  - case_bool_decide as Hc.
    + destruct Hc as (-> & -> & Hm). rewrite Hm.
      rewrite (gat_gput sz cm) by done. by rewrite bool_decide_true.
    + destruct (gat mask j i) as [[| |]|] eqn:Hm; try done.
      rewrite (gat_gput sz cm) by done.
      rewrite bool_decide_false; [done|]. intros [-> ->]. by apply Hc.
Qed.

Lemma clearRow_cons (mask : Grid Z) j i (is_ : list Z) (cm : Grid bool) :
  clearRow mask j cm (i :: is_) =
    clearRow mask j (match gat mask j i with
                     | Some 0 => gput cm j i false
                     | _ => cm
                     end) is_.
Proof. reflexivity. Qed.

Lemma clearRow_at sz (mask : Grid Z) j (is_ : list Z) (cm : Grid bool) px py :
  gsized sz cm -> 0 <= j < height sz ->
  Forall (fun i => 0 <= i < width sz) is_ -> inside sz px py ->
  gsized sz (clearRow mask j cm is_) /\
  gat (clearRow mask j cm is_) py px =
    if bool_decide (py = j /\ px ∈ is_ /\ gat mask py px = Some 0)
    then Some false else gat cm py px.
Proof.
  intros Hs Hj Hall Hp. revert cm Hs.
  induction Hall as [|i is_ Hi Hall IH]; intros cm Hs.
  - cbn. split; [done|]. rewrite bool_decide_false; [done|].
    intros (_ & Hin & _). by apply elem_of_nil in Hin.
  - rewrite clearRow_cons.
    destruct (clearStep_at sz mask j i cm px py Hs) as [Hs' Hcm'];
      [by split|done|].
    destruct (IH _ Hs') as [Hs'' Hat]. clear IH. split; [exact Hs''|].
    rewrite Hat, Hcm'. clear Hat Hcm'.
    case_bool_decide as H1.
    + rewrite bool_decide_true; [done|]. destruct H1 as (? & ? & ?).
      repeat split; try done. by right.
    + case_bool_decide as H2.
      * rewrite bool_decide_true; [done|]. destruct H2 as (? & -> & ?).
        repeat split; try done. left.
      * rewrite bool_decide_false; [done|]. intros (Hy & Hin & Hm).
        apply elem_of_cons in Hin as [->|Hin]; [by apply H2|by apply H1].
Qed.

Lemma clearRows_at sz (mask : Grid Z) (js : list Z) (cm : Grid bool) px py :
  gsized sz cm -> Forall (fun j => 0 <= j < height sz) js ->
  inside sz px py ->
  gsized sz (fold_left (fun cm j => clearRow mask j cm (seqZ 0 (width sz)))
                       js cm) /\
  gat (fold_left (fun cm j => clearRow mask j cm (seqZ 0 (width sz))) js cm)
      py px =
    if bool_decide (py ∈ js /\ gat mask py px = Some 0)
    then Some false else gat cm py px.
Proof.
  intros Hs Hall Hp. revert cm Hs.
  induction Hall as [|j js Hj Hall IH]; intros cm Hs.
  - cbn. split; [done|]. rewrite bool_decide_false; [done|].
    intros [Hin _]. by apply elem_of_nil in Hin.
  - cbn [fold_left].
    assert (Hcols : Forall (fun i => 0 <= i < width sz) (seqZ 0 (width sz))).
    { apply Forall_forall. intros i Hi. apply elem_of_seqZ in Hi. lia. }
    destruct (clearRow_at sz mask j (seqZ 0 (width sz)) cm px py Hs Hj Hcols Hp)
      as [Hs' Hrow].
    destruct (IH _ Hs') as [Hs'' Hat]. clear IH. split; [exact Hs''|].
    rewrite Hat, Hrow. clear Hat Hrow.
    assert (Hpx : px ∈ seqZ 0 (width sz))
      by (apply elem_of_seqZ; destruct Hp; lia).
    case_bool_decide as H1.
    + rewrite bool_decide_true; [done|]. destruct H1. split; [by right|done].
    + case_bool_decide as H2.
      * rewrite bool_decide_true; [done|]. destruct H2 as (-> & _ & ?).
        split; [left|done].
      * rewrite bool_decide_false; [done|]. intros [Hin Hm].
        apply elem_of_cons in Hin as [->|Hin]; [by apply H2|by apply H1].
Qed.

(** The coverage mask of a converted mesh covers exactly the pixels of the
    mask that the faces of the mesh were drawn on. *)
Theorem createMeshMask_covers_drawn (tileId : TileId)
    (extents : NodeInfoImpl.Extents2) (mesh : Mesh0 P3) (px py : Z) :
  inside coverageSize px py ->
  exists covered : bool,
    gat (createMeshMask tileId extents mesh) py px = Some covered /\
    (covered = true <->
     exists z, (px, py, z) ∈ maskPixels mesh extents coverageSize).
Proof.
  intros Hp. pose proof Hp as [Hx Hy]. unfold createMeshMask, rasterizeMesh.
  set (drawn := List.filter (inRaster coverageSize)
                  (maskPixels mesh extents coverageSize)).
  assert (Hw : 0 <= width coverageSize) by lia.
  assert (Hh : 0 <= height coverageSize) by lia.
  assert (Hrows : Forall (fun j => 0 <= j < height coverageSize)
                         (seqZ 0 (height coverageSize))).
  { apply Forall_forall. intros j Hj. apply elem_of_seqZ in Hj. lia. }
  destruct (clearRows_at coverageSize
              (fold_left (fun acc '(qx, qy, z) => gput acc qy qx 255) drawn
                         (constGrid coverageSize 0))
              (seqZ 0 (height coverageSize)) (constGrid coverageSize true)
              px py (constGrid_sized _ true Hw Hh) Hrows Hp) as [_ Hat].
  rewrite Hat. clear Hat.
  destruct (drawn_mask coverageSize drawn (constGrid coverageSize 0) px py
              (constGrid_sized _ 0 Hw Hh)) as [_ Hmask];
    [apply Forall_filter_inRaster|done|].
  rewrite Hmask, !gat_constGrid by done. clear Hmask.
  assert (Hdrawn : hits px py drawn = true <->
                   exists z, (px, py, z) ∈ maskPixels mesh extents coverageSize).
  { rewrite hits_spec. subst drawn. split; intros [z Hz]; exists z.
    - apply list_elem_of_In in Hz. apply List.filter_In in Hz as [Hz _].
      by apply list_elem_of_In.
    - apply list_elem_of_In, List.filter_In. split; [by apply list_elem_of_In|].
      by apply inRaster_inside. }
  assert (Hpy : py ∈ seqZ 0 (height coverageSize))
    by (apply elem_of_seqZ; lia).
  destruct (hits px py drawn) eqn:Hd.
  - exists true. rewrite bool_decide_false by (by intros [_ ?]).
    split; [done|]. split; [intros _; by apply Hdrawn|done].
  - exists false. rewrite bool_decide_true by done. split; [done|].
    split; [done|]. intros Hz. apply Hdrawn in Hz. discriminate.
Qed.

(** A converted mesh has one submesh with as many vertices, texture
    coordinates and faces as the input; its faces point at existing
    vertices and texture coordinates whenever those of the input do; and it
    carries external texture coordinates, one per vertex, and the texture
    layer exactly when they were asked for. *)
Theorem createMesh_well_formed (tileId : TileId) (m : Mesh0 P3)
    (divisionExtents : NodeInfoImpl.Extents2)
    (externalTextureCoordinates : bool) (textureLayer : option Z) :
  Forall (fun f => validFace (length (vertices m)) (f_v f) /\
                   validFace (length (texcoords m)) (f_t f)) (facets m) ->
  exists sm,
    submeshes (createMesh tileId m divisionExtents externalTextureCoordinates
                 textureLayer) = [sm] /\
    length (sm_vertices sm) = length (vertices m) /\
    length (sm_tc sm) = length (texcoords m) /\
    length (sm_faces sm) = length (facets m) /\
    length (sm_facesTc sm) = length (sm_faces sm) /\
    Forall (validFace (length (sm_vertices sm))) (sm_faces sm) /\
    Forall (validFace (length (sm_tc sm))) (sm_facesTc sm) /\
    (if externalTextureCoordinates
     then length (sm_etc sm) = length (sm_vertices sm) /\
          sm_textureLayer sm = textureLayer
     else sm_etc sm = [] /\ sm_textureLayer sm = None).
Proof.
  intros Hvalid. eexists. split; [reflexivity|]. cbn.
  rewrite !length_map. repeat split; try done.
  - apply Forall_forall. intros f Hf. apply list_elem_of_In in Hf.
    apply List.in_map_iff in Hf as (fc & <- & Hfc).
    apply list_elem_of_In in Hfc.
    by apply (proj1 (Forall_forall _ _) Hvalid fc Hfc).
  - apply Forall_forall. intros f Hf. apply list_elem_of_In in Hf.
    apply List.in_map_iff in Hf as (fc & <- & Hfc).
    apply list_elem_of_In in Hfc.
    by apply (proj1 (Forall_forall _ _) Hvalid fc Hfc).
  - destruct externalTextureCoordinates; [|done].
    by rewrite length_map.
Qed.

End MeshConversion.

(** *** A small input *)

(** Meshes given by the grid pixels their faces cover. *)
Definition pixelMesh := list (Z * Z * Z).

Definition pixelsOf (mesh : pixelMesh) (_ : NodeInfoImpl.Extents2) (_ : Size2)
    : list (Z * Z * Z) := mesh.

Definition copyMesh (_ : TileId) (mesh : pixelMesh)
    (_ : NodeInfoImpl.Extents2) (_ : bool) (_ : option Z) : pixelMesh := mesh.

Definition unitExtents : NodeInfoImpl.Extents2 :=
  NodeInfoImpl.mkExtents2 0 0 1 1.

Definition plainNodeInfo (t : TileId) : NodeInfoImpl.NodeInfo :=
  NodeInfoImpl.mkNodeInfo 0
    (NodeInfoImpl.mkRFTreeSubtree (NodeInfoImpl.mkNodePtr 0 (mkTileId 0 0 0)))
    (NodeInfoImpl.mkRFNode t 1 unitExtents None false true) false.

(** Input with data at (0,0,0) and (1,0,0) only. *)
Definition twoTiles : TileIndex := {[mkTileId 0 0 0; mkTileId 1 0 0]}.

Definition twoTilesEncoder : @Encoder pixelMesh Z :=
  Encoder_new (mkConfig None ∅) (fun _ => ([(0, 0, 5)], 0)) twoTiles 1
              (mkSize2 2 2).

Definition twoMeshes : list (pixelMesh * NodeInfoImpl.Extents2) :=
  [ ([(0, 0, 5); (1, 1, 7); (5, 5, 1)], unitExtents);
    ([(0, 0, 3); (0, 0, 4)], unitExtents) ].

(** The traversal of the small input: the root and (1,0,0) give tiles, the
    other three tiles of LOD 1 are visited and give [noData]. *)
Example run_twoTiles :
  map (fun en => (en.1, isNoData en.2))
      (run pixelsOf copyMesh plainNodeInfo twoTilesEncoder).1 =
  [ (mkTileId 0 0 0, false); (mkTileId 1 0 0, false);
    (mkTileId 1 1 0, true); (mkTileId 1 0 1, true);
    (mkTileId 1 1 1, true) ].
Proof. vm_compute. reflexivity. Qed.

(** Data at (2,3,3) only: the tiles above it give [noDataYet] and the
    traversal descends to it; their other children give [noData]. *)
Example run_deepTile :
  map (fun en => (en.1, match en.2 with
                        | noData => 0 | noDataYet => 1 | tileData _ => 2
                        end))
      (run pixelsOf copyMesh plainNodeInfo
         (Encoder_new (mkConfig None ∅) (fun _ => ([(0, 0, 5)], 0))
                      {[mkTileId 2 3 3]} 2 (mkSize2 2 2))).1 =
  [ (mkTileId 0 0 0, 1);
    (mkTileId 1 0 0, 0); (mkTileId 1 1 0, 0); (mkTileId 1 0 1, 0);
    (mkTileId 1 1 1, 1);
    (mkTileId 2 2 2, 0); (mkTileId 2 3 2, 0); (mkTileId 2 2 3, 0);
    (mkTileId 2 3 3, 2) ].
Proof. vm_compute. reflexivity. Qed.

(** An empty input: [noData] at the root, nothing else is generated. *)
Example run_empty :
  (run pixelsOf copyMesh plainNodeInfo
     (Encoder_new (mkConfig None ∅) (fun _ => ([], 0)) ∅ 1 (mkSize2 2 2))).1 =
  [ (mkTileId 0 0 0, noData) ].
Proof. vm_compute. reflexivity. Qed.


Lemma heightmap_keeps_minimum_witness :
  at_ (tileOf (generateHeightMaps pixelsOf (mkAccumulator (mkSize2 2 2) ∅)
                 (mkTileId 1 0 0) twoMeshes) (mkTileId 1 0 0)) 0 0
    = Some (finite 3) /\
  at_ (tileOf (generateHeightMaps pixelsOf (mkAccumulator (mkSize2 2 2) ∅)
                 (mkTileId 1 0 0) twoMeshes) (mkTileId 1 0 0)) 0 1
    = Some infinity.
Proof.
  assert (Hwf : Accumulator_wf (mkAccumulator (mkSize2 2 2) ∅)).
  { split; [cbn; lia|]. split; [cbn; lia|]. intros t m Hm.
    cbn in Hm. rewrite lookup_empty in Hm. discriminate. }
  split.
  - destruct (heightmap_keeps_minimum pixelsOf
                (mkAccumulator (mkSize2 2 2) ∅) (mkTileId 1 0 0) twoMeshes
                0 0 Hwf)
      as (before & after & _ & Ha & Hfresh & Hmin & _); [cbn; lia..|].
    rewrite Ha, Hmin, (Hfresh eq_refl). reflexivity.
  - destruct (heightmap_keeps_minimum pixelsOf
                (mkAccumulator (mkSize2 2 2) ∅) (mkTileId 1 0 0) twoMeshes
                1 0 Hwf)
      as (before & after & _ & Ha & Hfresh & Hmin & _); [cbn; lia..|].
    rewrite Ha, Hmin, (Hfresh eq_refl). reflexivity.
Defined.

(** *** The small input, continued *)

Lemma heightmap_order_independent_witness :
  at_ (tileOf (generateHeightMaps pixelsOf (mkAccumulator (mkSize2 2 2) ∅)
                 (mkTileId 1 0 0) twoMeshes) (mkTileId 1 0 0)) 0 0 =
  at_ (tileOf (generateHeightMaps pixelsOf (mkAccumulator (mkSize2 2 2) ∅)
                 (mkTileId 1 0 0) (reverse twoMeshes)) (mkTileId 1 0 0)) 0 0.
Proof.
  apply (heightmap_order_independent pixelsOf (mkAccumulator (mkSize2 2 2) ∅)
           (mkTileId 1 0 0) twoMeshes (reverse twoMeshes) 0 0).
  - symmetry. apply reverse_Permutation.
  - split; [cbn; lia|]. split; [cbn; lia|]. intros t m Hm.
    cbn in Hm. rewrite lookup_empty in Hm. discriminate.
  - cbn. lia.
  - cbn. lia.
Defined.

Lemma generateHeightMap_commute_witness :
  generateHeightMap pixelsOf
    (generateHeightMap pixelsOf (mkAccumulator (mkSize2 2 2) ∅)
       (mkTileId 1 0 0) [(0, 0, 5)] unitExtents)
    (mkTileId 1 1 0) [(1, 1, 7)] unitExtents =
  generateHeightMap pixelsOf
    (generateHeightMap pixelsOf (mkAccumulator (mkSize2 2 2) ∅)
       (mkTileId 1 1 0) [(1, 1, 7)] unitExtents)
    (mkTileId 1 0 0) [(0, 0, 5)] unitExtents.
Proof.
  apply (generateHeightMap_commute pixelsOf (mkAccumulator (mkSize2 2 2) ∅)
           (mkTileId 1 0 0) (mkTileId 1 1 0)). discriminate.
Defined.

Definition twoCalls
    : list (TileId * NodeInfoImpl.NodeInfo * TileResult (@Tile pixelMesh Z)) :=
  [ (mkTileId 0 0 0, plainNodeInfo (mkTileId 0 0 0), noDataYet);
    (mkTileId 1 0 0, plainNodeInfo (mkTileId 1 0 0), noDataYet) ].

Lemma generate_allocates_at_source_lod_witness :
  is_Some (hma_tiles (hma_ twoTilesEncoder) !! mkTileId 1 0 0) \/
  (mkTileId 1 0 0 ∈ twoCalls.*1.*1 /\ mkTileId 1 0 0 ∈ ti_ twoTilesEncoder /\
   lod (mkTileId 1 0 0) = ntSourceLod_ twoTilesEncoder).
Proof.
  apply (generate_allocates_at_source_lod pixelsOf copyMesh twoTilesEncoder
           twoCalls (mkTileId 1 0 0)).
  eexists. vm_compute. reflexivity.
Defined.

Lemma generate_keeps_tile_size_witness :
  hma_tileSize (hma_ (generateAll pixelsOf copyMesh twoTilesEncoder twoCalls))
    = mkSize2 2 2 /\
  is_Some (at_ (tileOf (hma_ (generateAll pixelsOf copyMesh twoTilesEncoder
                                twoCalls)) (mkTileId 1 0 0)) 1 1).
Proof.
  destruct (generate_keeps_tile_size pixelsOf copyMesh twoTilesEncoder
              twoCalls (mkTileId 1 0 0) 1 1) as (Hsz & _ & Hat).
  - split; [cbn; lia|]. split; [cbn; lia|]. intros t m Hm.
    cbn in Hm. rewrite lookup_empty in Hm. discriminate.
  - cbn. lia.
  - cbn. lia.
  - split; [exact Hsz|exact Hat].
Defined.

(** A mesh with one face, with the pixels it is drawn on given by its
    vertices. *)
Definition oneFace : Mesh0 (Z * Z * Z) :=
  mkMesh0 [(0, 0, 1); (1, 0, 1); (1, 1, 2)] [(0, 0, 0); (1, 0, 0); (1, 1, 0)]
          [mkFacet (0, 1, 2) (0, 1, 2)].

Definition vertexPixels (m : Mesh0 (Z * Z * Z)) (_ : NodeInfoImpl.Extents2)
    (_ : Size2) : list (Z * Z * Z) := vertices m.

Lemma createMeshMask_covers_drawn_witness :
  exists covered : bool,
    gat (createMeshMask (mkSize2 2 2) vertexPixels (mkTileId 1 0 0)
           unitExtents oneFace) 1 0 = Some covered /\
    (covered = true <->
     exists z, (0, 1, z) ∈ vertexPixels oneFace unitExtents (mkSize2 2 2)).
Proof.
  apply (createMeshMask_covers_drawn (mkSize2 2 2) vertexPixels
           (mkTileId 1 0 0) unitExtents oneFace 0 1).
  split; cbn; lia.
Defined.

Example createMeshMask_oneFace :
  g_data (createMeshMask (mkSize2 2 2) vertexPixels (mkTileId 1 0 0)
            unitExtents oneFace) = [true; true; false; true].
Proof. reflexivity. Qed.

Lemma createMesh_well_formed_witness :
  exists sm,
    submeshes (createMesh (fun _ p => p) (fun _ p => (p.1.1, p.1.2))
                 (fun p => (p.1.1, p.1.2)) (mkSize2 2 2) vertexPixels
                 (mkTileId 1 0 0) oneFace unitExtents true (Some 7)) = [sm] /\
    length (sm_etc sm) = 3%nat /\ sm_textureLayer sm = Some 7.
Proof.
  destruct (createMesh_well_formed (fun _ p => p)
              (fun _ p => (p.1.1, p.1.2)) (fun p => (p.1.1, p.1.2))
              (mkSize2 2 2) vertexPixels (mkTileId 1 0 0) oneFace unitExtents
              true (Some 7))
    as (sm & Hsm & Hv & _ & _ & _ & _ & _ & Hetc & Hlayer).
  - repeat constructor; cbn; lia.
  - exists sm. split; [exact Hsm|]. split; [|exact Hlayer].
    rewrite Hetc, Hv. reflexivity.
Defined.

(** *** LODs of the navigation tiles *)

(** [clampLod(lodRange, lod)]. *)
Definition clampLod (lodRange : Paste.LodRange) (l : Z) : Z :=
  if l <? Paste.lr_min lodRange then Paste.lr_min lodRange
  else if Paste.lr_max lodRange <? l then Paste.lr_max lodRange
  else l.

(** Clamping puts a LOD into a non-empty range, leaves a LOD of the range
    alone, and is idempotent. *)
Theorem clampLod_in_range (lodRange : Paste.LodRange) (l : Z) :
  Paste.lr_min lodRange <= Paste.lr_max lodRange ->
  Paste.lr_min lodRange <= clampLod lodRange l <= Paste.lr_max lodRange /\
  (Paste.lr_min lodRange <= l <= Paste.lr_max lodRange ->
   clampLod lodRange l = l) /\
  clampLod lodRange (clampLod lodRange l) = clampLod lodRange l.
Proof.
  intros Hr. unfold clampLod.
  repeat (match goal with
          | |- context [?a <? ?b] =>
              let H := fresh in destruct (Z.ltb_spec a b) as [H|H]
          end); repeat split; intros; lia.
Qed.

Lemma clampLod_in_range_witness :
  3 <= clampLod (Paste.mkLodRange 3 9) 1 <= 9 /\
  clampLod (Paste.mkLodRange 3 9) 12 = 9.
Proof.
  destruct (clampLod_in_range (Paste.mkLodRange 3 9) 1) as [H _];
    [cbn; lia|].
  split; [exact H|reflexivity].
Defined.

Section NavtileLod.

(** Pixel sizes, as the floating-point numbers of the code: the initial
    0.0, halving, and the test [std::round(lodPixelSize) <= pixelSize]. *)
Context {R : Type}.
Variable zero : R.
Variable half : R -> R.
Variable fine : R -> bool.

(** The pixel size of the navigation grid at a LOD, computed from the tile
    size and the scale at the centre of the data; none when the tile index
    has no mask at the LOD or the mask has no tile ([continue]). *)
Variable layerPixelSize : Z -> option R.

(** The loop of [determineNtLod] over the LODs still to visit:
    [lodPixelSize] so far, and the LOD returned from inside the loop. *)
Fixpoint firstFine (lods : list Z) (lodPixelSize : R) : option Z * R :=
  match lods with
  | [] => (None, lodPixelSize)
  | l :: rest =>
      match layerPixelSize l with
      | None => firstFine rest lodPixelSize
      | Some sz => if fine sz then (Some l, sz) else firstFine rest sz
      end
  end.

Definition lodsOf (lodRange : Paste.LodRange) : list Z :=
  seqZ (Paste.lr_min lodRange)
       (Paste.lr_max lodRange - Paste.lr_min lodRange + 1).

(** [determineNtLod]: the first LOD whose pixel size is small enough, or
    the bottom of the range ("no such LOD available, take bottom"). *)
Definition determineNtLod (lodRange : Paste.LodRange) : Z * R :=
  match firstFine (lodsOf lodRange) zero with
  | (Some l, sz) => (l, sz)
  | (None, sz) => (Paste.lr_max lodRange, sz)
  end.

(** [EncoderBase]. *)
Record EncoderBase := mkEncoderBase {
  eb_ntLodRange : Paste.LodRange;
  eb_ntSourceLod : Z;
  eb_ntSourceLodPixelSize : R
}.

(** [EncoderBase::EncoderBase], given [input->lodRange()] and the LOD
    range of the input's tile index, over which [determineNtLod] runs. *)
Definition EncoderBase_new (inputRange tiRange : Paste.LodRange)
    : EncoderBase :=
  let '(ntMax, px) := determineNtLod tiRange in
  let ntLodRange := Paste.mkLodRange (Paste.lr_min inputRange) ntMax in
  if ntMax + 1 <=? Paste.lr_max inputRange
  then mkEncoderBase ntLodRange (ntMax + 1) (half px)
  else mkEncoderBase ntLodRange ntMax px.

(** The LODs [Encoder::finish] resizes the height map to, in the order of
    its loop: [ntLodRange_.min + ntLodRange_.max - fLod]. *)
Definition finishLods (ntLodRange : Paste.LodRange) : list Z :=
  map (fun fLod => Paste.lr_min ntLodRange + Paste.lr_max ntLodRange - fLod)
      (lodsOf ntLodRange).

Lemma firstFine_spec (lods : list Z) (px : R) :
  match firstFine lods px with
  | (Some l, sz) =>
      exists before after,
        lods = before ++ l :: after /\
        layerPixelSize l = Some sz /\ fine sz = true /\
        Forall (fun l' => forall sz', layerPixelSize l' = Some sz' ->
                                      fine sz' = false) before
  | (None, _) =>
      Forall (fun l' => forall sz', layerPixelSize l' = Some sz' ->
                                    fine sz' = false) lods
  end.
Proof.
  revert px. induction lods as [|l lods IH]; intros px; cbn; [done|].
  destruct (layerPixelSize l) as [sz|] eqn:Hl.
  - destruct (fine sz) eqn:Hf.
    + exists [], lods. by rewrite Hl.
    + specialize (IH sz). destruct (firstFine lods sz) as [[l0|] sz0].
      * destruct IH as (before & after & -> & H1 & H2 & H3).
        exists (l :: before), after. repeat split; try done.
        constructor; [|done]. intros sz'. rewrite Hl. by intros [= <-].
      * constructor; [|done]. intros sz'. rewrite Hl. by intros [= <-].
  - specialize (IH px). destruct (firstFine lods px) as [[l0|] sz0].
    + destruct IH as (before & after & -> & H1 & H2 & H3).
      exists (l :: before), after. repeat split; try done.
      constructor; [|done]. intros sz'. by rewrite Hl.
    + constructor; [|done]. intros sz'. by rewrite Hl.
Qed.

Lemma elem_of_lodsOf (r : Paste.LodRange) (l : Z) :
  l ∈ lodsOf r <-> Paste.lr_min r <= l <= Paste.lr_max r.
Proof. unfold lodsOf. rewrite elem_of_seqZ. lia. Qed.

Lemma determineNtLod_in_range (lodRange : Paste.LodRange) :
  Paste.lr_min lodRange <= Paste.lr_max lodRange ->
  Paste.lr_min lodRange <= (determineNtLod lodRange).1
    <= Paste.lr_max lodRange.
Proof.
  intros Hr. unfold determineNtLod.
  pose proof (firstFine_spec (lodsOf lodRange) zero) as Hspec.
  destruct (firstFine (lodsOf lodRange) zero) as [[l|] sz]; cbn [fst];
    [|lia].
  destruct Hspec as (before & after & Hl & _).
  apply elem_of_lodsOf. rewrite Hl. apply elem_of_app. right. left.
Qed.

(** [determineNtLod] returns a LOD of the (non-empty) range: the first one
    whose pixel size is small enough, no LOD above it in the range being
    so, or the bottom of the range when no LOD qualifies. *)
Theorem determineNtLod_first (lodRange : Paste.LodRange) :
  Paste.lr_min lodRange <= Paste.lr_max lodRange ->
  Paste.lr_min lodRange <= (determineNtLod lodRange).1
    <= Paste.lr_max lodRange /\
  (forall l sz, Paste.lr_min lodRange <= l < (determineNtLod lodRange).1 ->
                layerPixelSize l = Some sz -> fine sz = false) /\
  ((layerPixelSize (determineNtLod lodRange).1
      = Some (determineNtLod lodRange).2 /\
    fine (determineNtLod lodRange).2 = true) \/
   ((determineNtLod lodRange).1 = Paste.lr_max lodRange /\
    forall l sz, Paste.lr_min lodRange <= l <= Paste.lr_max lodRange ->
                 layerPixelSize l = Some sz -> fine sz = false)).
Proof.
  intros Hr. unfold determineNtLod.
  pose proof (firstFine_spec (lodsOf lodRange) zero) as Hspec.
  destruct (firstFine (lodsOf lodRange) zero) as [[l|] sz]; cbn [fst snd].
  - destruct Hspec as (before & after & Hl & Hsz & Hf & Hbefore).
    assert (Hin : l ∈ lodsOf lodRange)
      by (rewrite Hl; apply elem_of_app; right; left).
    apply elem_of_lodsOf in Hin. split; [exact Hin|]. split; [|by left].
    intros l' sz' Hl' Hsz'.
    assert (Hin' : l' ∈ before).
    { assert (Hall : l' ∈ lodsOf lodRange) by (apply elem_of_lodsOf; lia).
      unfold lodsOf in Hl, Hall.
      apply list_elem_of_lookup in Hall as [i Hi].
      assert (Hlk : (before ++ l :: after) !! length before = Some l)
        by (by rewrite list_lookup_middle).
      rewrite <- Hl in Hlk. apply lookup_seqZ in Hlk as [Hlk _].
      pose proof Hi as Hi'. apply lookup_seqZ in Hi' as [Hi' _].
      rewrite Hl in Hi. rewrite lookup_app_l in Hi by lia.
      by apply list_elem_of_lookup_2 in Hi. }
    by apply (proj1 (Forall_forall _ _) Hbefore l' Hin' sz').
  - split; [lia|]. split.
    + intros l' sz' Hl' Hsz'.
      apply (proj1 (Forall_forall _ _) Hspec l'); [|done].
      apply elem_of_lodsOf. lia.
    + right. split; [done|]. intros l' sz' Hl' Hsz'.
      apply (proj1 (Forall_forall _ _) Hspec l'); [|done].
      by apply elem_of_lodsOf.
Qed.

(** With the LODs of the tile index inside the LOD range of the input: the
    LOD the navtile data are extracted from is a LOD of the input, the
    navtile LOD itself when that is the deepest input LOD and the LOD below
    it otherwise; the navtile range starts at the top of the input and is
    never empty. *)
Theorem EncoderBase_source_lod (inputRange tiRange : Paste.LodRange) :
  Paste.lr_min inputRange <= Paste.lr_min tiRange ->
  Paste.lr_min tiRange <= Paste.lr_max tiRange ->
  Paste.lr_max tiRange <= Paste.lr_max inputRange ->
  Paste.lr_min (eb_ntLodRange (EncoderBase_new inputRange tiRange)) =
    Paste.lr_min inputRange /\
  Paste.lr_min inputRange
    <= Paste.lr_max (eb_ntLodRange (EncoderBase_new inputRange tiRange))
    <= Paste.lr_max inputRange /\
  eb_ntSourceLod (EncoderBase_new inputRange tiRange)
    <= Paste.lr_max inputRange /\
  eb_ntSourceLod (EncoderBase_new inputRange tiRange) =
    Z.min (Paste.lr_max (eb_ntLodRange (EncoderBase_new inputRange tiRange)) + 1)
          (Paste.lr_max inputRange).
Proof.
  intros Hmin Hr Hmax. pose proof (determineNtLod_in_range tiRange Hr) as Hin.
  unfold EncoderBase_new.
  destruct (determineNtLod tiRange) as [ntMax px]. cbn [fst] in Hin.
  destruct (Z.leb_spec (ntMax + 1) (Paste.lr_max inputRange)); cbn;
    repeat split; lia.
Qed.

(** [Encoder::finish] walks the navtile range from its bottom to its top:
    its i-th round works on LOD max - i, and there is one round per LOD. *)
Theorem finishLods_descend (ntLodRange : Paste.LodRange) (i : nat) :
  Z.of_nat i <= Paste.lr_max ntLodRange - Paste.lr_min ntLodRange ->
  finishLods ntLodRange !! i = Some (Paste.lr_max ntLodRange - Z.of_nat i) /\
  Z.of_nat (length (finishLods ntLodRange)) =
    Paste.lr_max ntLodRange - Paste.lr_min ntLodRange + 1.
Proof.
  intros Hi. unfold finishLods, lodsOf. split.
  - change (map ?f ?l) with (f <$> l). rewrite list_lookup_fmap.
    rewrite lookup_seqZ_lt by lia. cbn. f_equal. lia.
  - rewrite length_map, length_seqZ. lia.
Qed.

End NavtileLod.

(** Pixel sizes in millimetres; one metre or less is fine. *)
Definition sampleLayerPixelSize (l : Z) : option Z :=
  if l =? 4 then None else Some (32000 / 2 ^ l).

Lemma determineNtLod_first_witness :
  3 <= (determineNtLod 0 (fun sz => sz <=? 1000) sampleLayerPixelSize
          (Paste.mkLodRange 3 9)).1 <= 9 /\
  determineNtLod 0 (fun sz => sz <=? 1000) sampleLayerPixelSize
    (Paste.mkLodRange 3 9) = (5, 1000).
Proof.
  destruct (determineNtLod_first 0 (fun sz => sz <=? 1000)
              sampleLayerPixelSize (Paste.mkLodRange 3 9)) as [H _];
    [cbn; lia|].
  split; [exact H|reflexivity].
Defined.

Lemma EncoderBase_source_lod_witness :
  eb_ntSourceLod (EncoderBase_new 0 (fun sz => sz / 2) (fun sz => sz <=? 1000)
                    sampleLayerPixelSize (Paste.mkLodRange 3 9)
                    (Paste.mkLodRange 3 9)) = 6 /\
  eb_ntSourceLod (EncoderBase_new 0 (fun sz => sz / 2) (fun sz => sz <=? 1000)
                    sampleLayerPixelSize (Paste.mkLodRange 3 9)
                    (Paste.mkLodRange 3 9)) <= 9.
Proof.
  destruct (EncoderBase_source_lod 0 (fun sz => sz / 2)
              (fun sz => sz <=? 1000) sampleLayerPixelSize
              (Paste.mkLodRange 3 9) (Paste.mkLodRange 3 9))
    as (_ & _ & Hle & _); [cbn; lia..|].
  split; [reflexivity|exact Hle].
Defined.

Lemma finishLods_descend_witness :
  finishLods (Paste.mkLodRange 3 5) !! 1%nat = Some 4 /\
  finishLods (Paste.mkLodRange 3 5) = [5; 4; 3].
Proof.
  destruct (finishLods_descend (Paste.mkLodRange 3 5) 1) as [H _];
    [cbn; lia|].
  split; [exact H|reflexivity].
Defined.

(** *** The tile range of a mask *)

(** A quad reported by [RasterMask::forEachQuad]: origin and size. *)
Record Quad := mkQuad { q_x : Z; q_y : Z; q_xsize : Z; q_ysize : Z }.

(** [vr::TileRange]; [None] stands for [math::InvalidExtents], the extents
    that any point replaces. *)
Abbreviation TileRange := (option NodeInfoImpl.Extents2).

(** [update(extents, point)]. *)
Definition update (tr : TileRange) (px py : Z) : TileRange :=
  match tr with
  | None => Some (NodeInfoImpl.mkExtents2 px py px py)
  | Some e =>
      Some (NodeInfoImpl.mkExtents2
              (Z.min (NodeInfoImpl.ll_x e) px) (Z.min (NodeInfoImpl.ll_y e) py)
              (Z.max (NodeInfoImpl.ur_x e) px) (Z.max (NodeInfoImpl.ur_y e) py))
  end.

Definition addQuad (tr : TileRange) (q : Quad) : TileRange :=
  update (update tr (q_x q) (q_y q))
         (q_x q + q_xsize q - 1) (q_y q + q_ysize q - 1).

(** [tileRange(layer)], over the white quads of the layer. *)
Definition tileRange (whiteQuads : list Quad) : TileRange :=
  fold_left addQuad whiteQuads None.

(** The range holds all quads of [l] and each of its sides is the side of
    one of them. *)
Definition boundingBox (l : list Quad) (e : NodeInfoImpl.Extents2) : Prop :=
  (forall q, q ∈ l ->
     NodeInfoImpl.ll_x e <= q_x q /\ q_x q + q_xsize q - 1 <= NodeInfoImpl.ur_x e /\
     NodeInfoImpl.ll_y e <= q_y q /\ q_y q + q_ysize q - 1 <= NodeInfoImpl.ur_y e) /\
  (exists q, q ∈ l /\ q_x q = NodeInfoImpl.ll_x e) /\
  (exists q, q ∈ l /\ q_y q = NodeInfoImpl.ll_y e) /\
  (exists q, q ∈ l /\ q_x q + q_xsize q - 1 = NodeInfoImpl.ur_x e) /\
  (exists q, q ∈ l /\ q_y q + q_ysize q - 1 = NodeInfoImpl.ur_y e).

Lemma boundingBox_first (q : Quad) :
  1 <= q_xsize q -> 1 <= q_ysize q ->
  exists e, addQuad None q = Some e /\ boundingBox [q] e.
Proof.
  intros Hx Hy. eexists. split; [reflexivity|]. unfold boundingBox; cbn.
  split.
  { intros q' Hq'. apply list_elem_of_singleton in Hq' as ->. lia. }
  repeat split; exists q; (split; [by left|lia]).
Qed.

Lemma boundingBox_next (l : list Quad) (e : NodeInfoImpl.Extents2) (q : Quad) :
  1 <= q_xsize q -> 1 <= q_ysize q -> boundingBox l e ->
  exists e', addQuad (Some e) q = Some e' /\ boundingBox (l ++ [q]) e'.
Proof.
  intros Hx Hy (Hall & (a & Ha & Hax) & (b & Hb & Hby) & (c & Hc & Hcx)
               & (g & Hg & Hgy)).
  eexists. split; [reflexivity|]. unfold boundingBox; cbn. split.
  { intros q' Hq'. apply elem_of_app in Hq' as [Hq'|Hq'].
    - specialize (Hall q' Hq'). lia.
    - apply list_elem_of_singleton in Hq' as ->. lia. }
  assert (Hq : q ∈ l ++ [q]) by (apply elem_of_app; right; left).
  assert (Hl : forall q', q' ∈ l -> q' ∈ l ++ [q])
    by (intros; apply elem_of_app; by left).
  split; [|split; [|split]].
  - destruct (Z.le_gt_cases (NodeInfoImpl.ll_x e) (q_x q));
      [exists a; split; [by apply Hl|lia] | exists q; split; [done|lia]].
  - destruct (Z.le_gt_cases (NodeInfoImpl.ll_y e) (q_y q));
      [exists b; split; [by apply Hl|lia] | exists q; split; [done|lia]].
  - destruct (Z.le_gt_cases (q_x q + q_xsize q - 1) (NodeInfoImpl.ur_x e));
      [exists c; split; [by apply Hl|lia] | exists q; split; [done|lia]].
  - destruct (Z.le_gt_cases (q_y q + q_ysize q - 1) (NodeInfoImpl.ur_y e));
      [exists g; split; [by apply Hl|lia] | exists q; split; [done|lia]].
Qed.

(** The tile range of a mask is invalid exactly when the mask has no white
    quad; otherwise it is the bounding box of the white quads: it holds
    every one of them and each of its four sides touches one. *)
Theorem tileRange_bounding_box (whiteQuads : list Quad) :
  Forall (fun q => 1 <= q_xsize q /\ 1 <= q_ysize q) whiteQuads ->
  match tileRange whiteQuads with
  | None => whiteQuads = []
  | Some e => whiteQuads <> [] /\ boundingBox whiteQuads e
  end.
Proof.
  unfold tileRange. induction whiteQuads as [|q l IH] using rev_ind;
    intros Hall; [done|].
  apply Forall_app in Hall as [Hl Hq]. apply Forall_singleton in Hq as [Hx Hy].
  rewrite fold_left_app. cbn [fold_left]. specialize (IH Hl).
  destruct (fold_left addQuad l None) as [e|].
  - destruct IH as [_ Hbb].
    destruct (boundingBox_next l e q Hx Hy Hbb) as (e' & -> & Hbb').
    split; [by destruct l|done].
  - subst l. destruct (boundingBox_first q Hx Hy) as (e' & -> & Hbb').
    split; done.
Qed.

Lemma tileRange_bounding_box_witness :
  tileRange [mkQuad 4 2 2 2; mkQuad 0 3 1 4] =
    Some (NodeInfoImpl.mkExtents2 0 2 5 6) /\
  boundingBox [mkQuad 4 2 2 2; mkQuad 0 3 1 4]
              (NodeInfoImpl.mkExtents2 0 2 5 6).
Proof.
  split; [reflexivity|].
  apply (tileRange_bounding_box [mkQuad 4 2 2 2; mkQuad 0 3 1 4]).
  repeat constructor; cbn; lia.
Defined.

(** *** The atlas that pipes the input JPEG *)

(** An exception of type [std::runtime_error], or a value. *)
Inductive Try (A : Type) : Type :=
| value (a : A)
| runtime_error (what : string).
Arguments value {A} a.
Arguments runtime_error {A} what.

(** [Atlas]: the bytes behind [stream_] and the image size [size_]. *)
Record PipedAtlas := mkPipedAtlas {
  stream_ : list Byte.byte;
  size_ : Size2
}.

(** [vts::multifile::Table]: the entries (start, size). *)
Abbreviation Table := (list (Z * Z)).

(** [Atlas::size]. *)
Definition Atlas_size (a : PipedAtlas) : Z := 1.

(** [std::ostream]: the bytes it holds, the put position and the fail
    bit. *)
Record OStream := mkOStream {
  os_data : list Byte.byte;
  os_pos : nat;
  os_fail : bool
}.

(** [os.tellp()]: the put position, and -1 once the stream has failed. *)
Definition tellp (os : OStream) : Z :=
  if os_fail os then -1 else Z.of_nat (os_pos os).

(** [data] with [bytes] written at position [pos]: over what is there and
    on past the end; a gap before [pos] is filled with zero bytes. *)
Definition writeAt (data : list Byte.byte) (pos : nat)
    (bytes : list Byte.byte) : list Byte.byte :=
  take pos data ++ replicate (pos - length data) Byte.x00 ++ bytes ++
  drop (pos + length bytes) data.

(** [os << rdbuf]: a failed stream takes nothing; inserting no character
    sets the fail bit; otherwise the characters are written at the put
    position, which moves behind them. *)
Definition insertAll (os : OStream) (bytes : list Byte.byte) : OStream :=
  if os_fail os then os
  else
    match bytes with
    | [] => mkOStream (os_data os) (os_pos os) true
    | _ :: _ =>
        mkOStream (writeAt (os_data os) (os_pos os) bytes)
                  (os_pos os + length bytes) false
    end.

(** [Atlas::serialize_impl(os)]: the input stream, read from its start, is
    written to [os] at its put position; the table gets one entry from the
    positions [tellp] reports before and after. *)
Definition serialize_impl (a : PipedAtlas) (os : OStream) : OStream * Table :=
  let start := tellp os in
  let os' := insertAll os (stream_ a) in
  let end_ := tellp os' in
  (os', [(start, end_ - start)]).

(** [Atlas::deserialize_impl]. *)
Definition deserialize_impl (a : PipedAtlas) (input : list Byte.byte)
    (table : Table) : Try PipedAtlas :=
  runtime_error "This atlas is serialize-only.".

(** [Atlas::imageSize_impl(index)]. *)
Definition imageSize_impl (a : PipedAtlas) (index : Z) : Try Size2 :=
  if bool_decide (index <> 0) then runtime_error "This atlas has just one image."
  else value (size_ a).

(** The bytes of a file that an entry of a table points at. *)
Definition slice (file : list Byte.byte) (entry : Z * Z) : list Byte.byte :=
  take (Z.to_nat entry.2) (drop (Z.to_nat entry.1) file).

(** Serialising to a stream that has not failed writes the JPEG, unchanged,
    at the put position: the bytes before it and the bytes behind the
    written range stay as they were, the put position moves behind the
    JPEG, and the table has as many entries as the atlas has images, its
    entry (the old put position, the length of the JPEG) pointing at exactly
    the bytes of the JPEG. *)
Theorem serialize_impl_table (a : PipedAtlas) (os : OStream) :
  os_fail os = false ->
  stream_ a <> [] ->
  (os_pos os <= length (os_data os))%nat ->
  (serialize_impl a os).2 =
    [(Z.of_nat (os_pos os), Z.of_nat (length (stream_ a)))] /\
  Z.of_nat (length (serialize_impl a os).2) = Atlas_size a /\
  (slice (os_data (serialize_impl a os).1) <$> (serialize_impl a os).2)
    = [stream_ a] /\
  take (os_pos os) (os_data (serialize_impl a os).1) =
    take (os_pos os) (os_data os) /\
  drop (os_pos os + length (stream_ a)) (os_data (serialize_impl a os).1) =
    drop (os_pos os + length (stream_ a)) (os_data os) /\
  os_pos (serialize_impl a os).1 = (os_pos os + length (stream_ a))%nat /\
  os_fail (serialize_impl a os).1 = false.
Proof.
  intros Hgood Hne Hpos. unfold serialize_impl, insertAll, tellp.
  rewrite Hgood. destruct (stream_ a) as [|b bytes] eqn:Hs; [done|].
  rewrite <- Hs. clear Hs Hne. cbn [fst snd os_data os_pos os_fail].
  set (jpeg := stream_ a). set (pos := os_pos os) in *.
  set (data := os_data os) in *.
  assert (Hlen : length (take pos data) = pos) by (rewrite length_take; lia).
  assert (Hw : writeAt data pos jpeg =
               take pos data ++ jpeg ++ drop (pos + length jpeg) data).
  { unfold writeAt. by replace (pos - length data)%nat with 0%nat by lia. }
  rewrite Hw. split; [f_equal; f_equal; lia|]. split; [done|].
  split; [|split; [|split; [|done]]].
  - cbn. unfold slice. cbn [fst snd].
    replace (Z.to_nat (Z.of_nat (pos + length jpeg) - Z.of_nat pos))
      with (length jpeg) by lia.
    rewrite Nat2Z.id. rewrite <- Hlen at 1. rewrite drop_app_length.
    by rewrite take_app_length.
  - rewrite <- Hlen at 1. by rewrite take_app_length.
  - rewrite (assoc_L (++)).
    replace (pos + length jpeg)%nat
      with (length (take pos data ++ jpeg)) at 1
      by (rewrite length_app; lia).
    by rewrite drop_app_length.
Qed.

Definition jpegBytes : list Byte.byte := [Byte.xff; Byte.xd8; Byte.xff].

Lemma serialize_impl_table_witness :
  os_data (serialize_impl (mkPipedAtlas jpegBytes (mkSize2 1 1))
             (mkOStream [Byte.x01; Byte.x02; Byte.x03; Byte.x04; Byte.x05]
                        1 false)).1
    = [Byte.x01; Byte.xff; Byte.xd8; Byte.xff; Byte.x05] /\
  (serialize_impl (mkPipedAtlas jpegBytes (mkSize2 1 1))
     (mkOStream [Byte.x01; Byte.x02; Byte.x03; Byte.x04; Byte.x05]
                1 false)).2 = [(1, 3)].
Proof.
  split; [reflexivity|].
  apply (serialize_impl_table (mkPipedAtlas jpegBytes (mkSize2 1 1))
           (mkOStream [Byte.x01; Byte.x02; Byte.x03; Byte.x04; Byte.x05]
                      1 false)); [reflexivity|discriminate|cbn; lia].
Defined.

(** An empty input writes nothing and sets the fail bit, after which
    [tellp] reports -1: the entry is (start, -1 - start). *)
Example serialize_impl_empty :
  serialize_impl (mkPipedAtlas [] (mkSize2 0 0)) (mkOStream [Byte.x01] 1 false)
    = (mkOStream [Byte.x01] 1 true, [(1, -2)]).
Proof. reflexivity. Qed.

(** The atlas has one image: [imageSize] answers for an index exactly when
    the index is below [size()], with the size of the JPEG; any other
    index, and any attempt to deserialise, is a [runtime_error]. *)
Theorem imageSize_impl_defined (a : PipedAtlas) (index : Z) :
  (0 <= index < Atlas_size a <-> imageSize_impl a index = value (size_ a)) /\
  (index <> 0 <-> exists what, imageSize_impl a index = runtime_error what) /\
  (forall input table, exists what,
     deserialize_impl a input table = runtime_error what).
Proof.
  unfold imageSize_impl, Atlas_size, deserialize_impl.
  case_bool_decide as Hi; repeat split; try (intros; lia); try done; eauto.
  - intros [what Hw]. discriminate.
Qed.

End Vts02Vts.
